(** * The label table of the MIPS assembler (LabelTable.c)

    A shallow embedding of [tableInit], [printLabels], [findLabel],
    [addLabel], [tableResize] and [verifyTableExists], and of
    [process_arguments] of the driver testPass1.c, together with the part
    of the C environment these functions touch:

    - the caller's NUL-terminated character buffers, kept in a store
      indexed by their address.  [addLabel] keeps the address it is
      handed, so an entry and the caller's buffer are one object;
    - the allocator, whose answers are an input of the model;
    - the error stream written by [printError];
    - the undefined behaviours of C that these functions can reach
      (reading through a pointer that designates no object, writing past
      the end of the entry array, signed overflow), all mapped to [Undef].

    The data layout is the LP64 one: [int] has 32 bits, [size_t] 64. *)

From Stdlib Require Import ZArith Lia.
From stdpp Require Import gmap list strings pretty.

Local Open Scope Z_scope.

(** ** Outcomes and the monad of the C environment *)

Inductive result (A : Type) : Type :=
| Val (a : A)
| Undef.
Arguments Val {A} a.
Arguments Undef {A}.

(** [strings]: the character buffers that exist, by address (the characters
    before the terminating NUL).  Address 0 is the null pointer and never
    holds a buffer in a well-formed world.
    [grants]: the allocator's answers to the requests to come, in order;
    when the list is exhausted every request is granted.
    [stderr]: the messages written by [printError], oldest first. *)
Record world : Type := World {
  strings : gmap Z string;
  grants : list bool;
  stderr : list string
}.

Definition M (A : Type) : Type := world -> result (A * world).

Definition ret {A} (a : A) : M A := fun w => Val (a, w).

Definition bind {A B} (m : M A) (k : A -> M B) : M B :=
  fun w => match m w with
           | Val (a, w') => k a w'
           | Undef => Undef
           end.

Definition undefined {A} : M A := fun _ => Undef.

Notation "x <- m ;; k" := (bind m (fun x => k))
  (at level 20, m at level 99, k at level 200, only parsing).
Notation "' p <- m ;; k" := (bind m (fun x => match x with p => k end))
  (at level 20, p pattern, m at level 99, k at level 200, only parsing).
Notation "m ;; k" := (bind m (fun _ => k))
  (at level 100, k at level 200, only parsing, right associativity).

(** ** C integers *)

Definition INT_MIN : Z := - 2 ^ 31.
Definition INT_MAX : Z := 2 ^ 31 - 1.
Definition SIZE_MAX : Z := 2 ^ 64 - 1.
Definition PTRDIFF_MAX : Z := 2 ^ 63 - 1.

Definition in_int (z : Z) : bool := (INT_MIN <=? z) && (z <=? INT_MAX).

(** The value of an [int] expression: overflow is undefined. *)
Definition int (z : Z) : M Z :=
  if in_int z then ret z else undefined.

(** Conversion of an [int] to [size_t], and [size_t] multiplication. *)
Definition size_t (z : Z) : Z := z mod (SIZE_MAX + 1).
Definition size_mul (a b : Z) : Z := (a * b) mod (SIZE_MAX + 1).

(** ** The C library *)

Definition ERROR0 : string := "Error: no label table exists.
".
Definition ERROR1 : string := "Error: a duplicate label was found.
".
Definition ERROR2 : string := "Error: cannot allocate space in memory.
".

(** testPass1.c: [const int SAME = 0]. *)
Definition SAME : Z := 0.

(** Modelled from the spec: printFuncs.h is missing; [printError] is the
    error-reporting call of section 7, which writes its message to the error
    stream.  With the format "%s" the message is the argument itself. *)
Definition printError (msg : string) : M unit :=
  fun w => Val (tt, World (strings w) (grants w) (stderr w ++ [msg])).

(** The allocator answers a request with its next grant. *)
Definition request : M bool :=
  fun w => match grants w with
           | [] => Val (true, w)
           | g :: gs => Val (g, World (strings w) gs (stderr w))
           end.

(** [malloc (bytes)], as a success flag: no allocator grants a request
    above [PTRDIFF_MAX] bytes. *)
Definition malloc (bytes : Z) : M bool :=
  if PTRDIFF_MAX <? bytes then ret false else request.

(** Reading the string a [char *] points to. *)
Definition load_string (p : Z) : M string :=
  fun w => match strings w !! p with
           | Some s => Val (s, w)
           | None => Undef
           end.

(** An address above every buffer of the store (never the null pointer). *)
Definition fresh_addr (h : gmap Z string) : Z :=
  map_fold (fun k _ r => Z.max (k + 1) r) 1 h.

(** A new buffer holding [s], at an address no buffer has. *)
Definition new_string (s : string) : M Z :=
  fun w => let q := fresh_addr (strings w) in
           Val (q, World (<[q := s]> (strings w)) (grants w) (stderr w)).

(** [strdup]: [None] is the null pointer.  The string is an object of the
    program, so the request for its copy is below [PTRDIFF_MAX]. *)
Definition strdup (p : Z) : M (option Z) :=
  s <- load_string p ;;
  ok <- request ;;
  if (ok : bool) then q <- new_string s ;; ret (Some q)
  else ret None.

(** [free] of a string obtained from [strdup]. *)
Definition free_string (p : Z) : M unit :=
  fun w => match strings w !! p with
           | Some _ => Val (tt, World (delete p (strings w)) (grants w) (stderr w))
           | None => Undef
           end.

Definition strcmp (p q : Z) : M Z :=
  s1 <- load_string p ;;
  s2 <- load_string q ;;
  ret (match String.compare s1 s2 with
       | Eq => 0
       | Lt => -1
       | Gt => 1
       end).

(** ** The table *)

(** Modelled from the spec: LabelTable.h is missing; the two structures are
    the (label, address) pair and the resizable collection with [count]
    and [capacity] of section 3, under the field names LabelTable.c uses. *)
Record LabelEntry : Type := Entry {
  label : Z;        (* char * *)
  address : Z       (* int *)
}.

(** A slot of the entry array: [None] while it holds what [malloc] left
    there. *)
Abbreviation cell := (option LabelEntry).

Record LabelTable : Type := Table {
  capacity : Z;
  entries : option (list cell);   (* [None]: the null pointer *)
  nbrLabels : Z
}.

(** sizeof(LabelEntry): a pointer, an int and padding. *)
Definition sizeof_LabelEntry : Z := 16.

(** [malloc] of an entry array. *)
Definition malloc_entries (bytes : Z) : M (option (list cell)) :=
  ok <- malloc bytes ;;
  ret (if (ok : bool)
       then Some (replicate (Z.to_nat (bytes / sizeof_LabelEntry)) (None : cell))
       else None).

(** [memcpy (dst, src, bytes)] between entry arrays. *)
Definition memcpy (dst src : list cell) (bytes : Z) : M (list cell) :=
  let k := Z.to_nat (bytes / sizeof_LabelEntry) in
  if (k <=? length src)%nat && (k <=? length dst)%nat
  then ret (take k src ++ drop k dst)
  else undefined.

(** [*table]. *)
Definition deref (table : option LabelTable) : M LabelTable :=
  match table with
  | Some t => ret t
  | None => undefined
  end.

(** [table->entries[i]], read. *)
Definition read_entry (es : option (list cell)) (i : nat) : M LabelEntry :=
  match es with
  | Some cells =>
      match cells !! i with
      | Some (Some e) => ret e
      | _ => undefined
      end
  | None => undefined
  end.

(** [table->entries[i] = e]. *)
Definition write_entry (es : option (list cell)) (i : Z) (e : LabelEntry)
  : M (list cell) :=
  match es with
  | Some cells =>
      if (0 <=? i) && (i <? Z.of_nat (length cells))
      then ret (<[Z.to_nat i := Some e]> cells)
      else undefined
  | None => undefined
  end.

Definition verifyTableExists (table : option LabelTable) : M Z :=
  match table with
  | None => printError ERROR0 ;; ret 0
  | Some _ => ret 1
  end.

Definition tableInit (table : option LabelTable) : M (option LabelTable) :=
  ok <- verifyTableExists table ;;
  if ok =? 0 then
    printError ERROR0 ;; ret table
  else
    _ <- deref table ;;
    es <- malloc_entries sizeof_LabelEntry ;;
    ret (Some (Table 0 es 0)).

(** The loop of [findLabel]: [n] iterations are left, the next one at
    index [i]. *)
Fixpoint findLabel_loop (es : option (list cell)) (lbl : Z) (i n : nat) : M Z :=
  match n with
  | O => ret (-1)
  | S n' =>
      e <- read_entry es i ;;
      c <- strcmp (label e) lbl ;;
      if c =? SAME then ret (address e)
      else findLabel_loop es lbl (S i) n'
  end.

Definition findLabel (table : option LabelTable) (lbl : Z) : M Z :=
  ok <- verifyTableExists table ;;
  if ok =? 0 then ret (-1)
  else
    t <- deref table ;;
    findLabel_loop (entries t) lbl 0 (Z.to_nat (nbrLabels t)).

Definition tableResize (table : option LabelTable) (newSize : Z)
  : M (Z * option LabelTable) :=
  ok <- verifyTableExists table ;;
  if ok =? 0 then ret (0, table)
  else
    newEntryList <- malloc_entries (size_mul (size_t newSize) sizeof_LabelEntry) ;;
    match newEntryList with
    | None => printError ERROR2 ;; ret (0, table)
    | Some new =>
        t <- deref table ;;
        ' (new', n) <-
          match entries t with
          | Some old =>
              let smaller :=
                if nbrLabels t <? newSize then nbrLabels t else newSize in
              new' <- memcpy new old (size_mul (size_t smaller) sizeof_LabelEntry) ;;
              ret (new', smaller)
          | None => ret (new, nbrLabels t)
          end ;;
        ret (1, Some (Table newSize (Some new') n))
    end.

Definition addLabel (table : option LabelTable) (lbl : Z) (PC : Z)
  : M (Z * option LabelTable) :=
  ok <- verifyTableExists table ;;
  if ok =? 0 then ret (0, table)
  else
    labelDuplicate <- strdup lbl ;;
    match labelDuplicate with
    | None => printError ERROR1 ;; ret (0, table)
    | Some dup =>
        found <- findLabel table lbl ;;
        if negb (found =? -1) then
          printError ERROR2 ;;
          free_string dup ;;
          ret (1, table)
        else
          t <- deref table ;;
          table' <-
            (if nbrLabels t >=? capacity t then
               n1 <- int (nbrLabels t + 1) ;;
               n2 <- int (2 * n1) ;;
               ' (_, table') <- tableResize table n2 ;;
               ret table'
             else ret table) ;;
          t' <- deref table' ;;
          es <- write_entry (entries t') (nbrLabels t')
                  (Entry lbl PC) ;;
          n <- int (nbrLabels t' + 1) ;;
          ret (1, Some (Table (capacity t') (Some es) n))
    end.

(** ** The caller *)

(** The caller overwrites one of its buffers (reads the next line into it). *)
Definition store_string (p : Z) (s : string) : M unit :=
  fun w => match strings w !! p with
           | Some _ => Val (tt, World (<[p := s]> (strings w)) (grants w) (stderr w))
           | None => Undef
           end.

(** A run of [addLabel] calls on one table, each with its buffer address
    and its program counter; the caller goes on whatever a call returns. *)
Fixpoint addLabels (table : option LabelTable) (calls : list (Z * Z))
  : M (option LabelTable) :=
  match calls with
  | [] => ret table
  | (lbl, PC) :: rest =>
      ' (_, table') <- addLabel table lbl PC ;;
      addLabels table' rest
  end.

(** The caller of the examples: it initialises its table, adds the label
    in the buffer at [p] with address [PC], reads its next line, [s], into
    that same buffer, and then asks for the label in the buffer at [q] and
    for the one in [p]. *)
Definition reuse_of_buffer (t : LabelTable) (p PC : Z) (s : string) (q : Z)
  : M (Z * Z) :=
  table <- tableInit (Some t) ;;
  ' (_, table) <- addLabel table p PC ;;
  store_string p s ;;
  a <- findLabel table q ;;
  b <- findLabel table p ;;
  ret (a, b).

(** A caller that initialises its table and adds one label. *)
Definition first_label (t : LabelTable) (p PC : Z) : M (Z * option LabelTable) :=
  table <- tableInit (Some t) ;;
  addLabel table p PC.

(** ** [printLabels] *)

(** [printf]: the text goes behind what the standard output already holds. *)
Definition printf (text : string) (out : list string) : M (list string) :=
  ret (out ++ [text]).

(** "There are %d labels in the table:\n" *)
Definition labels_header (n : Z) : string :=
  "There are " +:+ pretty n +:+ " labels in the table:
".

(** "table name: %s                     Address: %d\n" *)
Definition label_line (name : string) (addr : Z) : string :=
  "table name: " +:+ name +:+ "                     Address: " +:+ pretty addr +:+ "
".

(** The loop of [printLabels]: [n] iterations are left, the next one at
    index [i]. *)
Fixpoint printLabels_loop (es : option (list cell)) (i n : nat)
    (out : list string) : M (list string) :=
  match n with
  | O => ret out
  | S n' =>
      e <- read_entry es i ;;
      name <- load_string (label e) ;;
      out' <- printf (label_line name (address e)) out ;;
      printLabels_loop es (S i) n' out'
  end.

Definition printLabels (table : option LabelTable) (out : list string)
  : M (list string) :=
  match table with
  | None => printf "Label Table is a NULL pointer.
" out
  | Some t =>
      out' <- printf (labels_header (nbrLabels t)) out ;;
      printLabels_loop (entries t) 0 (Z.to_nat (nbrLabels t)) out'
  end.

(** ** The driver's arguments (testPass1.c) *)

(** [strcmp] on two strings at hand. *)
Definition compare_strings (s1 s2 : string) : Z :=
  match String.compare s1 s2 with
  | Eq => 0
  | Lt => -1
  | Gt => 1
  end.

(** [argv[i]]: the strings of [argv] are followed by a null pointer. *)
Definition arg (argv : list string) (i : nat) : M string :=
  match argv !! i with
  | Some a => ret a
  | None => undefined
  end.

(** [process_arguments].  The debugging facility and the file system are
    not part of these sources: [debug_on], [debug_off],
    [override_debug_changes] and [fopen] (for reading) are taken as they
    come, with [FILE] the type of open files and [None] the null pointer. *)
Section ProcessArguments.
Variable FILE : Type.
Variable stdin : FILE.
Variables debug_on debug_off override_debug_changes : M unit.
Variable fopen : string -> M (option FILE).

(** The first part: the debugging choice is taken and erased.  The result
    is the argument count and the argument vector as the second part
    finds them. *)
Definition debugging_choice (argc : Z) (argv : list string)
  : M (Z * list string) :=
  if argc >? 1 then
    a1 <- arg argv 1 ;;
    if compare_strings a1 "0" =? SAME then
      debug_off ;; override_debug_changes ;;
      a <- (if argc >? 2 then arg argv 2 else arg argv 1) ;;
      ret (argc - 1, <[1%nat := a]> argv)
    else if compare_strings a1 "1" =? SAME then
      debug_on ;; override_debug_changes ;;
      a <- (if argc >? 2 then arg argv 2 else arg argv 1) ;;
      ret (argc - 1, <[1%nat := a]> argv)
    else if argc >? 2 then
      a2 <- arg argv 2 ;;
      if compare_strings a2 "0" =? SAME then
        debug_off ;; override_debug_changes ;;
        ret (argc - 1, argv)
      else if compare_strings a2 "1" =? SAME then
        debug_on ;; override_debug_changes ;;
        ret (argc - 1, argv)
      else ret (argc, argv)
    else ret (argc, argv)
  else ret (argc, argv).

Definition process_arguments (argc : Z) (argv : list string)
  : M (option FILE) :=
  ' (argc, argv) <- debugging_choice argc argv ;;
  if argc >? 2 then
    a0 <- arg argv 0 ;;
    printError ("Usage:  " +:+ a0 +:+ " [filename] [0|1]
") ;;
    ret None
  else if argc >? 1 then
    a1 <- arg argv 1 ;;
    fptr <- fopen a1 ;;
    match fptr with
    | None =>
        printError ("Error: Cannot open file " +:+ a1 +:+ ".
") ;;
        ret None
    | Some f => ret (Some f)
    end
  else ret (Some stdin).

(** What the two parts come to, for the statements below: the calls made
    for a debugging choice, the opening of the file named [f], and the
    usage error of the program [p]. *)
Definition set_debug (b : bool) : M unit :=
  (if b then debug_on else debug_off) ;; override_debug_changes.

Definition open_file (f : string) : M (option FILE) :=
  fptr <- fopen f ;;
  match fptr with
  | None =>
      printError ("Error: Cannot open file " +:+ f +:+ ".
") ;;
      ret None
  | Some x => ret (Some x)
  end.

Definition usage_error (p : string) : M (option FILE) :=
  printError ("Usage:  " +:+ p +:+ " [filename] [0|1]
") ;;
  ret None.
End ProcessArguments.

(** The debugging choice an argument stands for: "0" is off, "1" is on. *)
Definition debug_flag (a : string) : option bool :=
  if decide (a = "0"%string) then Some false
  else if decide (a = "1"%string) then Some true
  else None.

(** The choice [process_arguments] takes from its first two arguments. *)
Definition first_choice (a1 a2 : string) : option bool :=
  match debug_flag a1 with
  | Some b => Some b
  | None => debug_flag a2
  end.

(** * What a table holds *)

Definition cells_of (t : LabelTable) : list cell := default [] (entries t).

(** The slots below [nbrLabels]. *)
Definition live (t : LabelTable) : list cell :=
  take (Z.to_nat (nbrLabels t)) (cells_of t).

(** The name a slot designates in the store [h]. *)
Definition entry_name (h : gmap Z string) (c : cell) : option string :=
  match c with
  | Some e => h !! label e
  | None => None
  end.

Definition entry_address (c : cell) : option Z := address <$> c.

Definition table_names (h : gmap Z string) (t : LabelTable) : list (option string) :=
  entry_name h <$> live t.

(** A live slot has been written and its label designates a buffer. *)
Definition entry_ok (h : gmap Z string) (c : cell) : Prop :=
  is_Some (entry_name h c).

(** The table is one the functions can work on: the count is within the
    array, the array has at least [capacity] slots, the live slots are
    readable. *)
Record table_ok (h : gmap Z string) (t : LabelTable) : Prop := TableOk {
  ok_count : 0 <= nbrLabels t <= Z.of_nat (length (cells_of t));
  ok_capacity : capacity t <= Z.of_nat (length (cells_of t));
  ok_live : Forall (entry_ok h) (live t)
}.

(** What the scan of [findLabel] computes on the live slots. *)
Fixpoint first_match (h : gmap Z string) (s : string) (cs : list cell) : Z :=
  match cs with
  | [] => -1
  | c :: cs' =>
      if decide (entry_name h c = Some s)
      then default (-1) (entry_address c)
      else first_match h s cs'
  end.

(** The live slots designate pairwise distinct names, none at the address
    [findLabel] uses for "not found". *)
Record distinct_names (h : gmap Z string) (t : LabelTable) : Prop := Distinct {
  dn_ok : table_ok h t;
  dn_names : NoDup (table_names h t);
  dn_addresses : Forall (fun c => entry_address c <> Some (-1)) (live t)
}.

Definition call_ok (h : gmap Z string) (c : Z * Z) : Prop :=
  is_Some (h !! c.1) /\ c.2 <> -1.

Definition generous (w : world) : Prop :=
  Forall (fun g => g = true) (grants w).

Definition resized (t : LabelTable) (newSize : Z) : LabelTable :=
  let k := Z.to_nat (Z.min (nbrLabels t) newSize) in
  Table newSize
        (Some (take k (cells_of t) ++ replicate (Z.to_nat newSize - k) None))
        (Z.min (nbrLabels t) newSize).

(** The table after [table->entries[nbrLabels] = ...; nbrLabels++]. *)
Definition appended (t : LabelTable) (lbl PC : Z) : LabelTable :=
  Table (capacity t)
        (Some (<[Z.to_nat (nbrLabels t) := Some (Entry lbl PC)]> (cells_of t)))
        (nbrLabels t + 1).

(** The world once [strdup] has made its copy. *)
Definition copied (w : world) (s : string) : world :=
  World (<[fresh_addr (strings w) := s]> (strings w)) (tail (grants w)) (stderr w).

(** A caller that initialises its table and then makes the [addLabel]
    calls of [calls], in order. *)
Definition session (t : LabelTable) (calls : list (Z * Z)) : M (option LabelTable) :=
  table <- tableInit (Some t) ;;
  addLabels table calls.

(** ** The table as a list of definitions *)

(** What the live slots say: the name and the address of each. *)
Definition view (h : gmap Z string) (t : LabelTable)
  : list (option string * option Z) :=
  (fun c => (entry_name h c, entry_address c)) <$> live t.




(** A symbol list as the live slots show it. *)
Definition shown (l : list (string * Z)) : list (option string * option Z) :=
  (fun d => (Some d.1, Some d.2)) <$> l.

(** The lines [printLabels] writes for a symbol list. *)
Definition label_lines (l : list (string * Z)) : list string :=
  (fun d => label_line d.1 d.2) <$> l.


(** ** Concrete data *)

(** The buffers of the examples: "A" at 100 and at 300, "B" at 200, "C" at
    400. *)
Definition buffers : gmap Z string :=
  {[ 100 := "A"; 200 := "B"; 300 := "A"; 400 := "C" ]}%string.

(** A table variable before [tableInit]: its fields hold anything. *)
Definition raw_table : LabelTable := Table 7 None 7.

(** A table of capacity 2 that holds the label at 100, with address 0. *)
Definition one_label : LabelTable :=
  Table 2 (Some [Some (Entry 100 0); None]) 1.

(** The same table once the label at 200 is in, with address 4: it is full. *)
Definition two_labels : LabelTable :=
  Table 2 (Some [Some (Entry 100 0); Some (Entry 200 4)]) 2.

(** A debugging facility and a file system for the examples: the three
    debugging calls leave their name on the error stream, and the one file
    that can be opened is "prog.s". *)
Definition noting (name : string) : M unit := printError name.

Definition only_prog (f : string) : M (option string) :=
  ret (if decide (f = "prog.s"%string) then Some f else None).

Definition driver (argv : list string) : M (option string) :=
  process_arguments string "<stdin>"%string
    (noting "debug_on") (noting "debug_off") (noting "override_debug_changes")
    only_prog (Z.of_nat (length argv)) argv.


(** * Properties *)

(** ** The monad *)

Lemma bind_Val {A B} (m : M A) (k : A -> M B) w a w' :
  m w = Val (a, w') -> bind m k w = k a w'.
Proof. intros H. unfold bind. now rewrite H. Qed.

Lemma bind_inv {A B} (m : M A) (k : A -> M B) w r :
  bind m k w = Val r -> exists a w', m w = Val (a, w') /\ k a w' = Val r.
Proof.
  unfold bind. destruct (m w) as [[a w']|]; [|discriminate].
  intros H. now exists a, w'.
Qed.

(** ** Sizes *)

Lemma entries_bytes n :
  0 <= n <= INT_MAX ->
  size_mul (size_t n) sizeof_LabelEntry = n * 16.
Proof.
  unfold INT_MAX, size_mul, size_t, SIZE_MAX, sizeof_LabelEntry. intros Hn.
  rewrite (Z.mod_small n) by lia. apply Z.mod_small. lia.
Qed.

Lemma malloc_entries_granted n w :
  0 <= n <= INT_MAX -> hd true (grants w) = true ->
  malloc_entries (size_mul (size_t n) sizeof_LabelEntry) w
  = Val (Some (replicate (Z.to_nat n) None),
         World (strings w) (tail (grants w)) (stderr w)).
Proof.
  intros Hn Hg. rewrite entries_bytes by done.
  unfold malloc_entries, malloc, bind, request, ret, sizeof_LabelEntry.
  replace (PTRDIFF_MAX <? n * 16) with false
    by (symmetry; apply Z.ltb_ge; unfold PTRDIFF_MAX, INT_MAX in *; lia).
  rewrite Z.div_mul by done.
  destruct w as [h [|g gs] e]; simpl in *; [done|]. now subst g.
Qed.

Lemma malloc_entries_refused n w gs :
  0 <= n <= INT_MAX -> grants w = false :: gs ->
  malloc_entries (size_mul (size_t n) sizeof_LabelEntry) w
  = Val (None, World (strings w) gs (stderr w)).
Proof.
  intros Hn Hg. rewrite entries_bytes by done.
  unfold malloc_entries, malloc, bind, request, ret, sizeof_LabelEntry.
  replace (PTRDIFF_MAX <? n * 16) with false
    by (symmetry; apply Z.ltb_ge; unfold PTRDIFF_MAX, INT_MAX in *; lia).
  now rewrite Hg.
Qed.

Lemma memcpy_prefix (dst src : list cell) k :
  0 <= k <= INT_MAX ->
  (Z.to_nat k <= length src)%nat -> (Z.to_nat k <= length dst)%nat ->
  forall w, memcpy dst src (size_mul (size_t k) sizeof_LabelEntry) w
            = Val (take (Z.to_nat k) src ++ drop (Z.to_nat k) dst, w).
Proof.
  intros Hk Hs Hd w. rewrite entries_bytes by done.
  unfold memcpy, sizeof_LabelEntry. rewrite Z.div_mul by done.
  apply Nat.leb_le in Hs, Hd. now rewrite Hs, Hd.
Qed.

(** ** [tableResize] *)

Lemma tableResize_granted t newSize w :
  0 <= nbrLabels t <= Z.of_nat (length (cells_of t)) ->
  0 <= newSize <= INT_MAX ->
  hd true (grants w) = true ->
  tableResize (Some t) newSize w
  = Val ((1, Some (resized t newSize)),
         World (strings w) (tail (grants w)) (stderr w)).
Proof.
  intros Hc Hn Hg. unfold tableResize.
  cbn [verifyTableExists]. unfold bind at 1. cbn [ret Z.eqb].
  erewrite bind_Val by (apply malloc_entries_granted; done).
  cbn [deref]. unfold bind at 1. cbn [ret].
  unfold resized, cells_of in *.
  destruct t as [cap [old|] n];
    cbn [entries nbrLabels capacity default from_option id] in *.
  - assert (Hmin : (if n <? newSize then n else newSize) = Z.min n newSize).
    { destruct (Z.ltb_spec n newSize); lia. }
    rewrite Hmin.
    unfold INT_MAX in *.
    erewrite bind_Val.
    2:{ erewrite bind_Val; [reflexivity|].
        apply memcpy_prefix; unfold INT_MAX; [lia|lia|].
        rewrite length_replicate. lia. }
    cbn [ret]. now rewrite drop_replicate.
  - cbn [length] in Hc. assert (n = 0) as -> by lia.
    unfold bind, ret. rewrite Z.min_l by lia. cbn [Z.to_nat take app].
    now rewrite Nat.sub_0_r.
Qed.

Lemma tableResize_refused t newSize w gs :
  0 <= newSize <= INT_MAX ->
  grants w = false :: gs ->
  tableResize (Some t) newSize w
  = Val ((0, Some t), World (strings w) gs (stderr w ++ [ERROR2])).
Proof.
  intros Hn Hg. unfold tableResize.
  cbn [verifyTableExists]. unfold bind at 1. cbn [ret Z.eqb].
  erewrite bind_Val by (apply malloc_entries_refused; done).
  reflexivity.
Qed.

Lemma tableResize_negative t newSize w :
  INT_MIN <= newSize < 0 ->
  tableResize (Some t) newSize w
  = Val ((0, Some t), World (strings w) (grants w) (stderr w ++ [ERROR2])).
Proof.
  intros Hn. unfold tableResize.
  cbn [verifyTableExists]. unfold bind at 1. cbn [ret Z.eqb].
  assert (Hbytes : size_mul (size_t newSize) sizeof_LabelEntry
                   = 16 * newSize + 2 ^ 64).
  { unfold size_mul, size_t, SIZE_MAX, sizeof_LabelEntry, INT_MIN in *.
    rewrite <- (Z.mod_unique newSize (2 ^ 64 - 1 + 1) (-1) (newSize + 2 ^ 64))
      by lia.
    symmetry. apply (Z.mod_unique _ _ 15); lia. }
  rewrite Hbytes. unfold malloc_entries, malloc.
  replace (PTRDIFF_MAX <? 16 * newSize + 2 ^ 64) with true
    by (symmetry; apply Z.ltb_lt; unfold PTRDIFF_MAX, INT_MIN in *; lia).
  reflexivity.
Qed.

Lemma resized_cells t newSize :
  cells_of (resized t newSize)
  = take (Z.to_nat (Z.min (nbrLabels t) newSize)) (cells_of t)
    ++ replicate (Z.to_nat newSize - Z.to_nat (Z.min (nbrLabels t) newSize)) None.
Proof. reflexivity. Qed.

Lemma resized_length t newSize :
  0 <= nbrLabels t <= Z.of_nat (length (cells_of t)) -> 0 <= newSize ->
  length (cells_of (resized t newSize)) = Z.to_nat newSize.
Proof.
  intros Hc Hn. rewrite resized_cells, length_app, length_take, length_replicate.
  lia.
Qed.

Lemma resized_lookup t newSize (i : nat) :
  0 <= nbrLabels t <= Z.of_nat (length (cells_of t)) ->
  (i < Z.to_nat (Z.min (nbrLabels t) newSize))%nat ->
  cells_of (resized t newSize) !! i = cells_of t !! i.
Proof.
  intros Hc Hi. rewrite resized_cells.
  rewrite lookup_app_l by (rewrite length_take; lia).
  now apply lookup_take_lt.
Qed.

(** ** [findLabel] *)

Lemma strcmp_same w p q s1 s2 :
  strings w !! p = Some s1 -> strings w !! q = Some s2 ->
  exists c, strcmp p q w = Val (c, w) /\ (c =? SAME) = bool_decide (s1 = s2).
Proof.
  intros H1 H2. unfold strcmp, bind, load_string, ret. rewrite H1, H2.
  eexists; split; [reflexivity|].
  destruct (String.compare s1 s2) eqn:E.
  - apply String.compare_eq_iff in E. now rewrite bool_decide_true.
  - rewrite bool_decide_false; [done|]. intros ->.
    pose proof (String.compare_antisym s2 s2) as Ha.
    rewrite E in Ha. discriminate.
  - rewrite bool_decide_false; [done|]. intros ->.
    pose proof (String.compare_antisym s2 s2) as Ha.
    rewrite E in Ha. discriminate.
Qed.

Lemma findLabel_loop_scan w lbl s cells n : forall i,
  strings w !! lbl = Some s ->
  (i + n <= length cells)%nat ->
  Forall (entry_ok (strings w)) (take n (drop i cells)) ->
  findLabel_loop (Some cells) lbl i n w
  = Val (first_match (strings w) s (take n (drop i cells)), w).
Proof.
  induction n as [|n IH]; intros i Hl Hlen Hok.
  - reflexivity.
  - destruct (lookup_lt_is_Some_2 cells i) as [c Hc]; [lia|].
    rewrite (drop_S _ _ _ Hc) in Hok |- *. cbn [take] in Hok |- *.
    apply Forall_cons in Hok as [[s' Hs'] Hok].
    destruct c as [e|]; [|discriminate]. cbn [entry_name] in Hs'.
    cbn [findLabel_loop first_match entry_name entry_address fmap option_fmap option_map
         default from_option id].
    unfold bind at 1. cbn [read_entry]. rewrite Hc. cbn [ret].
    destruct (strcmp_same w (label e) lbl s' s Hs' Hl) as (c & Hcmp & Hsame).
    unfold bind at 1. rewrite Hcmp, Hsame, Hs'.
    destruct (decide (Some s' = Some s)) as [Heq|Hne].
    + injection Heq as ->. now rewrite bool_decide_true.
    + rewrite bool_decide_false by congruence.
      apply IH; [done|lia|done].
Qed.

Lemma findLabel_scan w t lbl s :
  table_ok (strings w) t ->
  strings w !! lbl = Some s ->
  findLabel (Some t) lbl w
  = Val (first_match (strings w) s (live t), w).
Proof.
  intros [Hc _ Hok] Hl. unfold findLabel.
  cbn [verifyTableExists]. unfold bind at 1. cbn [ret Z.eqb deref].
  unfold bind at 1. cbn [ret]. unfold live, cells_of in *.
  destruct (entries t) as [cells|]; cbn [default from_option id] in *.
  - rewrite <- (drop_0 cells) at 2. rewrite <- (drop_0 cells) in Hok.
    apply findLabel_loop_scan; [done|lia|done].
  - cbn [length] in Hc. assert (nbrLabels t = 0) as -> by lia. reflexivity.
Qed.

Lemma first_match_absent h s cs :
  Some s ∉ entry_name h <$> cs -> first_match h s cs = -1.
Proof.
  induction cs as [|c cs IH]; [done|]. cbn [first_match fmap list_fmap].
  intros Hn. apply not_elem_of_cons in Hn as [Hne Hn].
  rewrite decide_False by congruence. now apply IH.
Qed.

Lemma first_match_present h s cs :
  Some s ∈ entry_name h <$> cs ->
  Forall (fun c => entry_address c <> Some (-1)) cs ->
  first_match h s cs <> -1.
Proof.
  induction cs as [|c cs IH]; cbn [first_match fmap list_fmap].
  - intros H. now apply elem_of_nil in H.
  - intros Hin Ha. apply Forall_cons in Ha as [Hc Ha].
    destruct (decide (entry_name h c = Some s)) as [Heq|Hne].
    + destruct c as [e|]; [|discriminate]. cbn in *. congruence.
    + apply elem_of_cons in Hin as [Heq|Hin]; [congruence|]. now apply IH.
Qed.

Lemma first_match_found h s cs :
  first_match h s cs <> -1 -> Some s ∈ entry_name h <$> cs.
Proof.
  intros H. destruct (decide (Some s ∈ entry_name h <$> cs)) as [|Hn]; [done|].
  now apply first_match_absent in Hn.
Qed.

(** ** The store *)

Lemma fresh_addr_above (h : gmap Z string) k :
  is_Some (h !! k) -> k < fresh_addr h.
Proof.
  unfold fresh_addr.
  apply (map_fold_weak_ind
           (fun r (m : gmap Z string) => forall k, is_Some (m !! k) -> k < r)).
  - intros k' [x Hx]. now rewrite lookup_empty in Hx.
  - intros i x m r _ IH k' Hk. destruct (decide (i = k')) as [->|Hne].
    + lia.
    + rewrite lookup_insert_ne in Hk by done. specialize (IH k' Hk). lia.
Qed.

Lemma fresh_addr_free (h : gmap Z string) : h !! fresh_addr h = None.
Proof.
  destruct (h !! fresh_addr h) eqn:E; [|done].
  assert (fresh_addr h < fresh_addr h) by (apply fresh_addr_above; eauto).
  lia.
Qed.

Lemma fresh_addr_subseteq (h : gmap Z string) s :
  h ⊆ <[fresh_addr h := s]> h.
Proof. apply insert_subseteq, fresh_addr_free. Qed.

Lemma entry_name_weaken (h h' : gmap Z string) c :
  h ⊆ h' -> entry_ok h c -> entry_name h' c = entry_name h c.
Proof.
  intros Hsub [s Hs]. destruct c as [e|]; [|discriminate]. cbn in *.
  rewrite Hs. eapply lookup_weaken; eauto.
Qed.

Lemma entry_names_weaken (h h' : gmap Z string) cs :
  h ⊆ h' -> Forall (entry_ok h) cs ->
  entry_name h' <$> cs = entry_name h <$> cs.
Proof.
  intros Hsub Hok. induction Hok as [|c cs Hc _ IH]; [done|].
  cbn [fmap list_fmap]. f_equal; [now apply entry_name_weaken | exact IH].
Qed.

Lemma first_match_weaken (h h' : gmap Z string) s cs :
  h ⊆ h' -> Forall (entry_ok h) cs ->
  first_match h' s cs = first_match h s cs.
Proof.
  intros Hsub Hok. induction Hok as [|c cs Hc _ IH]; [done|].
  cbn [first_match]. rewrite (entry_name_weaken h h') by done. now rewrite IH.
Qed.

Lemma table_ok_weaken (h h' : gmap Z string) t :
  h ⊆ h' -> table_ok h t -> table_ok h' t.
Proof.
  intros Hsub [Hc Hcap Hok]. split; [done|done|].
  eapply Forall_impl; [exact Hok|]. intros c Hc'. unfold entry_ok.
  rewrite (entry_name_weaken h h') by done. exact Hc'.
Qed.

(** ** [strdup] *)

Lemma strdup_granted p s w :
  strings w !! p = Some s -> hd true (grants w) = true ->
  strdup p w = Val (Some (fresh_addr (strings w)), copied w s).
Proof.
  intros Hp Hg.
  unfold strdup, bind, load_string, request, new_string, ret, copied.
  rewrite Hp. destruct w as [h [|g gs] e]; simpl in *; [done|]. now subst g.
Qed.

Lemma strdup_refused p s w gs :
  strings w !! p = Some s -> grants w = false :: gs ->
  strdup p w = Val (None, World (strings w) gs (stderr w)).
Proof.
  intros Hp Hg. unfold strdup, bind, load_string, request, ret.
  now rewrite Hp, Hg.
Qed.

Lemma next_grant_cases w :
  (hd true (grants w) = true) \/ (exists gs, grants w = false :: gs).
Proof. destruct (grants w) as [|[] gs]; simpl; eauto. Qed.

(** ** [addLabel] *)

Lemma int_Val z w :
  INT_MIN <= z <= INT_MAX -> int z w = Val (z, w).
Proof.
  intros [Hlo Hhi]. unfold int, in_int.
  apply Z.leb_le in Hlo, Hhi. now rewrite Hlo, Hhi.
Qed.

Lemma int_inv z w r :
  int z w = Val r -> r = (z, w) /\ INT_MIN <= z <= INT_MAX.
Proof.
  unfold int, in_int. destruct (INT_MIN <=? z) eqn:Hlo; [|discriminate].
  destruct (z <=? INT_MAX) eqn:Hhi; [|discriminate].
  apply Z.leb_le in Hlo, Hhi. now intros [= <-].
Qed.

Lemma copied_lookup w s p x :
  strings w !! p = Some x -> strings (copied w s) !! p = Some x.
Proof.
  intros Hp. cbn [copied strings].
  eapply lookup_weaken; [exact Hp | apply fresh_addr_subseteq].
Qed.

Lemma addLabel_refused t lbl PC s w gs :
  strings w !! lbl = Some s -> grants w = false :: gs ->
  addLabel (Some t) lbl PC w
  = Val ((0, Some t), World (strings w) gs (stderr w ++ [ERROR1])).
Proof.
  intros Hl Hg. unfold addLabel. cbn [verifyTableExists].
  unfold bind at 1. cbn [ret Z.eqb].
  erewrite bind_Val by (eapply strdup_refused; eassumption).
  reflexivity.
Qed.

(** The last statements of [addLabel], on a table with a free slot at
    [nbrLabels]. *)
Lemma append_entry (t : LabelTable) lbl PC w :
  0 <= nbrLabels t < Z.of_nat (length (cells_of t)) ->
  nbrLabels t < INT_MAX ->
  (t' <- deref (Some t) ;;
   es <- write_entry (entries t') (nbrLabels t') (Entry lbl PC) ;;
   n <- int (nbrLabels t' + 1) ;;
   ret (1, Some (Table (capacity t') (Some es) n))) w
  = Val ((1, Some (appended t lbl PC)), w).
Proof.
  intros Hn Hmax. cbn [deref]. unfold bind at 1. cbn [ret].
  unfold cells_of in *. destruct (entries t) as [cells|] eqn:E;
    cbn [default from_option id length] in *; [|lia].
  unfold bind at 1, write_entry.
  replace ((0 <=? nbrLabels t) && (nbrLabels t <? Z.of_nat (length cells)))
    with true by (symmetry; apply andb_true_iff; split;
                  [apply Z.leb_le | apply Z.ltb_lt]; lia).
  cbn [ret].
  erewrite bind_Val by (apply int_Val; unfold INT_MIN, INT_MAX in *; lia).
  unfold ret, appended, cells_of. now rewrite E.
Qed.

(** The cases of an [addLabel] whose string copy is granted, on a table the
    functions can work on. *)
Section AddLabelGranted.
Variables (t : LabelTable) (lbl PC : Z) (s : string) (w : world).
Hypothesis Hok : table_ok (strings w) t.
Hypothesis Hl : strings w !! lbl = Some s.
Hypothesis Hg : hd true (grants w) = true.

Lemma findLabel_copied :
  findLabel (Some t) lbl (copied w s)
  = Val (first_match (strings w) s (live t), copied w s).
Proof using Hok Hl.
  rewrite (findLabel_scan (copied w s) t lbl s).
  - f_equal. f_equal. apply first_match_weaken; [apply fresh_addr_subseteq|].
    apply Hok.
  - eapply table_ok_weaken; [|exact Hok]. apply fresh_addr_subseteq.
  - now apply copied_lookup.
Qed.

(** Up to the test on [findLabel]'s answer. *)
Ltac addLabel_scan :=
  unfold addLabel; cbn [verifyTableExists]; unfold bind at 1; cbn [ret Z.eqb];
  erewrite bind_Val by (apply strdup_granted; eassumption);
  cbv beta iota;
  erewrite bind_Val by (apply findLabel_copied);
  cbv beta.

(** Up to the test on the capacity, for a name [findLabel] does not find. *)
Ltac addLabel_new Hf :=
  addLabel_scan; rewrite Hf, Z.eqb_refl; cbn [negb deref];
  unfold bind at 1; cbn [ret].

Lemma addLabel_duplicate :
  first_match (strings w) s (live t) <> -1 ->
  addLabel (Some t) lbl PC w
  = Val ((1, Some t),
         World (strings w) (tail (grants w)) (stderr w ++ [ERROR2])).
Proof using Hok Hl Hg.
  intros Hf. addLabel_scan.
  apply Z.eqb_neq in Hf. rewrite Hf. cbn [negb].
  unfold bind, printError, free_string, ret, copied. cbn [strings grants stderr].
  rewrite lookup_insert_eq. rewrite delete_insert_eq.
  rewrite delete_id by apply fresh_addr_free. reflexivity.
Qed.

Lemma addLabel_room :
  first_match (strings w) s (live t) = -1 ->
  nbrLabels t < capacity t -> nbrLabels t < INT_MAX ->
  addLabel (Some t) lbl PC w
  = Val ((1, Some (appended t lbl PC)), copied w s).
Proof using Hok Hl Hg.
  intros Hf Hroom Hmax. addLabel_new Hf.
  replace (nbrLabels t >=? capacity t) with false
    by (symmetry; rewrite Z.geb_leb; apply Z.leb_gt; lia).
  unfold bind at 1. cbn [ret].
  apply append_entry; [|done]. destruct Hok as [Hc Hcap _]. lia.
Qed.

Lemma addLabel_grow :
  hd true (tail (grants w)) = true ->
  first_match (strings w) s (live t) = -1 ->
  capacity t <= nbrLabels t -> 2 * (nbrLabels t + 1) <= INT_MAX ->
  addLabel (Some t) lbl PC w
  = Val ((1, Some (appended (resized t (2 * (nbrLabels t + 1))) lbl PC)),
         World (strings (copied w s)) (tail (tail (grants w))) (stderr w)).
Proof using Hok Hl Hg.
  intros Hg2 Hf Hfull Hmax. addLabel_new Hf.
  replace (nbrLabels t >=? capacity t) with true
    by (symmetry; rewrite Z.geb_leb; apply Z.leb_le; lia).
  destruct Hok as [Hc Hcap _].
  assert (Hint : INT_MIN <= nbrLabels t + 1 <= INT_MAX
                 /\ INT_MIN <= 2 * (nbrLabels t + 1) <= INT_MAX)
    by (unfold INT_MIN, INT_MAX in *; lia).
  erewrite bind_Val.
  2:{ erewrite bind_Val by (apply int_Val, Hint).
      erewrite bind_Val by (apply int_Val, Hint).
      erewrite bind_Val by (apply tableResize_granted; [done|lia|exact Hg2]).
      reflexivity. }
  apply append_entry.
  - rewrite resized_length by lia. cbn [resized nbrLabels]. lia.
  - cbn [resized nbrLabels]. lia.
Qed.

(** The growth is refused and the array happens to have a slot at
    [nbrLabels]. *)
Lemma addLabel_grow_refused gs :
  tail (grants w) = false :: gs ->
  first_match (strings w) s (live t) = -1 ->
  capacity t <= nbrLabels t -> 2 * (nbrLabels t + 1) <= INT_MAX ->
  nbrLabels t < Z.of_nat (length (cells_of t)) ->
  addLabel (Some t) lbl PC w
  = Val ((1, Some (appended t lbl PC)),
         World (strings (copied w s)) gs (stderr w ++ [ERROR2])).
Proof using Hok Hl Hg.
  intros Hg2 Hf Hfull Hmax Hslot. addLabel_new Hf.
  replace (nbrLabels t >=? capacity t) with true
    by (symmetry; rewrite Z.geb_leb; apply Z.leb_le; lia).
  destruct Hok as [Hc Hcap _].
  assert (Hint : INT_MIN <= nbrLabels t + 1 <= INT_MAX
                 /\ INT_MIN <= 2 * (nbrLabels t + 1) <= INT_MAX)
    by (unfold INT_MIN, INT_MAX in *; lia).
  erewrite bind_Val.
  2:{ erewrite bind_Val by (apply int_Val, Hint).
      erewrite bind_Val by (apply int_Val, Hint).
      erewrite bind_Val by (apply tableResize_refused; [lia|exact Hg2]).
      reflexivity. }
  apply append_entry; [lia|unfold INT_MAX in *; lia].
Qed.
End AddLabelGranted.

(** ** The live slots after a resize and after an append *)

Lemma live_resized t newSize :
  0 <= nbrLabels t <= Z.of_nat (length (cells_of t)) ->
  live (resized t newSize)
  = take (Z.to_nat (Z.min (nbrLabels t) newSize)) (cells_of t).
Proof.
  intros Hc. unfold live. rewrite resized_cells. cbn [resized nbrLabels].
  rewrite take_app_le by (rewrite length_take; lia).
  rewrite take_take. f_equal. lia.
Qed.

Lemma live_resized_larger t newSize :
  0 <= nbrLabels t <= Z.of_nat (length (cells_of t)) ->
  nbrLabels t <= newSize ->
  live (resized t newSize) = live t.
Proof.
  intros Hc Hn. rewrite live_resized by done. unfold live.
  now rewrite Z.min_l.
Qed.

Lemma live_appended t lbl PC :
  0 <= nbrLabels t < Z.of_nat (length (cells_of t)) ->
  live (appended t lbl PC) = live t ++ [Some (Entry lbl PC)].
Proof.
  intros Hn. unfold live, appended.
  cbn [nbrLabels cells_of entries default from_option id].
  fold (cells_of t).
  replace (Z.to_nat (nbrLabels t + 1)) with (S (Z.to_nat (nbrLabels t))) by lia.
  erewrite take_S_r by (apply list_lookup_insert_eq; lia).
  now rewrite take_insert_ge by lia.
Qed.

Lemma table_ok_resized h t newSize :
  table_ok h t -> 0 <= newSize -> table_ok h (resized t newSize).
Proof.
  intros [Hc Hcap Hok] Hn. split.
  - rewrite resized_length by done. cbn [resized nbrLabels]. lia.
  - rewrite resized_length by done. cbn [resized capacity]. lia.
  - rewrite live_resized by done. unfold live in Hok.
    apply Forall_forall. intros c Hin.
    rewrite Forall_forall in Hok. apply Hok.
    apply list_elem_of_lookup in Hin as [i Hi].
    apply list_elem_of_lookup. exists i.
    pose proof (lookup_lt_Some _ _ _ Hi) as Hlt. rewrite length_take in Hlt.
    rewrite lookup_take_lt in Hi by lia.
    rewrite lookup_take_lt by lia. exact Hi.
Qed.

Lemma table_ok_appended h t lbl PC s :
  table_ok h t -> nbrLabels t < Z.of_nat (length (cells_of t)) ->
  h !! lbl = Some s ->
  table_ok h (appended t lbl PC).
Proof.
  intros [Hc Hcap Hok] Hn Hl. split.
  - cbn [appended nbrLabels cells_of entries default from_option id].
    fold (cells_of t). rewrite length_insert. lia.
  - cbn [appended capacity cells_of entries default from_option id].
    fold (cells_of t). rewrite length_insert. lia.
  - rewrite live_appended by lia. apply Forall_app. split; [done|].
    apply Forall_singleton. exists s. exact Hl.
Qed.

(** ** Every defined outcome of [addLabel] *)

Lemma grow_inv t w table' w' :
  0 <= nbrLabels t <= Z.of_nat (length (cells_of t)) ->
  (if nbrLabels t >=? capacity t
   then n1 <- int (nbrLabels t + 1) ;;
        n2 <- int (2 * n1) ;;
        ' (_, table') <- tableResize (Some t) n2 ;;
        ret table'
   else ret (Some t)) w = Val (table', w') ->
  strings w' = strings w /\
  (table' = Some t \/
   (table' = Some (resized t (2 * (nbrLabels t + 1)))
    /\ 2 * (nbrLabels t + 1) <= INT_MAX)).
Proof.
  intros Hc H. destruct (nbrLabels t >=? capacity t).
  - apply bind_inv in H as (n1 & w1 & H1 & H).
    apply int_inv in H1 as [[= -> ->] _].
    apply bind_inv in H as (n2 & w2 & H2 & H).
    apply int_inv in H2 as [[= -> ->] [_ Hmax]].
    assert (Hsz : 0 <= 2 * (nbrLabels t + 1) <= INT_MAX) by lia.
    destruct (grants w) as [|[] gs] eqn:Hg.
    + erewrite bind_Val in H
        by (apply tableResize_granted; [done|done|now rewrite Hg]).
      injection H as <- <-. split; [done|]. right. done.
    + erewrite bind_Val in H
        by (apply tableResize_granted; [done|done|now rewrite Hg]).
      injection H as <- <-. split; [done|]. right. done.
    + erewrite bind_Val in H by (apply tableResize_refused; [done|exact Hg]).
      injection H as <- <-. split; [done|]. now left.
  - injection H as <- <-. split; [done|]. now left.
Qed.

Lemma append_inv (t : LabelTable) lbl PC w r table' w' :
  (t' <- deref (Some t) ;;
   es <- write_entry (entries t') (nbrLabels t') (Entry lbl PC) ;;
   n <- int (nbrLabels t' + 1) ;;
   ret (1, Some (Table (capacity t') (Some es) n))) w
  = Val ((r, table'), w') ->
  r = 1 /\ table' = Some (appended t lbl PC) /\ w' = w
  /\ 0 <= nbrLabels t < Z.of_nat (length (cells_of t)).
Proof.
  cbn [deref]. unfold bind at 1. cbn [ret]. intros H.
  apply bind_inv in H as (es & w1 & Hw & H).
  unfold write_entry, cells_of in *.
  destruct (entries t) as [cells|] eqn:E; [|discriminate].
  destruct ((0 <=? nbrLabels t) && (nbrLabels t <? Z.of_nat (length cells)))
    eqn:Hb; [|discriminate].
  injection Hw as <- <-.
  apply andb_true_iff in Hb as [H0%Z.leb_le H1%Z.ltb_lt].
  apply bind_inv in H as (n & w2 & Hn & H).
  apply int_inv in Hn as [[= -> ->] _]. injection H as <- <- <-.
  cbn [default from_option id]. unfold appended, cells_of. rewrite E.
  repeat split; done.
Qed.

Lemma addLabel_inv t lbl PC s w r table' w' :
  table_ok (strings w) t -> strings w !! lbl = Some s ->
  addLabel (Some t) lbl PC w = Val ((r, table'), w') ->
  strings w ⊆ strings w' /\
  (table' = Some t \/
   (r = 1 /\ first_match (strings w) s (live t) = -1 /\
    exists t1, table' = Some (appended t1 lbl PC)
               /\ table_ok (strings w) t1 /\ live t1 = live t
               /\ nbrLabels t1 < Z.of_nat (length (cells_of t1)))).
Proof.
  intros Hok Hl H.
  destruct (next_grant_cases w) as [Hg|[gs Hg]].
  2:{ rewrite (addLabel_refused t lbl PC s w gs Hl Hg) in H.
      injection H as <- <- <-. split; [done|]. now left. }
  destruct (decide (first_match (strings w) s (live t) = -1)) as [Hf|Hf].
  2:{ rewrite (addLabel_duplicate t lbl PC s w Hok Hl Hg Hf) in H.
      injection H as <- <- <-. split; [done|]. now left. }
  revert H. unfold addLabel. cbn [verifyTableExists]. unfold bind at 1.
  cbn [ret Z.eqb].
  erewrite bind_Val by (apply strdup_granted; eassumption). cbv beta iota.
  erewrite bind_Val by (now apply findLabel_copied). cbv beta.
  rewrite Hf, Z.eqb_refl. cbn [negb deref]. unfold bind at 1. cbn [ret].
  intros H. apply bind_inv in H as (table1 & w1 & Hgrow & H).
  apply grow_inv in Hgrow as [Hstr Hgrow]; [|apply Hok].
  assert (Hsub : strings w ⊆ strings w1).
  { rewrite Hstr. apply fresh_addr_subseteq. }
  destruct Hgrow as [->|[-> Hmax]].
  - apply append_inv in H as (-> & -> & -> & Hn).
    split; [done|]. right. split; [done|]. split; [done|].
    exists t. split; [done|]. split; [done|]. split; [done|lia].
  - apply append_inv in H as (-> & -> & -> & Hn).
    split; [done|]. right. split; [done|]. split; [done|].
    destruct Hok as [Hc Hcap Hlive].
    exists (resized t (2 * (nbrLabels t + 1))). split; [done|].
    split; [apply table_ok_resized; [done|lia]|].
    split; [apply live_resized_larger; lia|lia].
Qed.

(** ** Distinct names *)

Lemma distinct_names_weaken (h h' : gmap Z string) t :
  h ⊆ h' -> distinct_names h t -> distinct_names h' t.
Proof.
  intros Hsub [Hok Hnd Ha]. split; [|unfold table_names|done].
  - eapply table_ok_weaken; eauto.
  - rewrite (entry_names_weaken h h') by (done || apply Hok). exact Hnd.
Qed.

Lemma addLabel_keeps_distinct t lbl PC s w r table' w' :
  distinct_names (strings w) t -> strings w !! lbl = Some s -> PC <> -1 ->
  addLabel (Some t) lbl PC w = Val ((r, table'), w') ->
  strings w ⊆ strings w' /\
  exists t', table' = Some t' /\ distinct_names (strings w') t'.
Proof.
  intros Hd Hl HPC H. pose proof Hd as [Hok Hnd Ha].
  destruct (addLabel_inv _ _ _ _ _ _ _ _ Hok Hl H)
    as [Hsub [->|(-> & Hf & t1 & -> & Hok1 & Hlive & Hn)]].
  - split; [done|]. exists t. split; [done|].
    eapply distinct_names_weaken; eauto.
  - split; [done|]. eexists. split; [reflexivity|].
    apply (distinct_names_weaken (strings w)); [done|].
    assert (Hn0 : 0 <= nbrLabels t1 < Z.of_nat (length (cells_of t1))).
    { destruct Hok1 as [Hc _ _]. lia. }
    split.
    + eapply table_ok_appended; eauto.
    + unfold table_names. rewrite live_appended, Hlive by done.
      rewrite fmap_app. cbn [fmap list_fmap entry_name label].
      rewrite Hl. apply NoDup_app. split; [exact Hnd|]. split.
      * intros x Hx Hx'. apply list_elem_of_singleton in Hx'. subst x.
        apply (first_match_present (strings w) s (live t)) in Hx; done.
      * apply NoDup_singleton.
    + rewrite live_appended, Hlive by done. apply Forall_app. split; [done|].
      apply Forall_singleton. cbn. congruence.
Qed.

Lemma addLabels_keep_distinct calls : forall t w table' w',
  distinct_names (strings w) t ->
  Forall (call_ok (strings w)) calls ->
  addLabels (Some t) calls w = Val (table', w') ->
  strings w ⊆ strings w' /\
  exists t', table' = Some t' /\ distinct_names (strings w') t'.
Proof.
  induction calls as [|[lbl PC] calls IH]; intros t w table' w' Hd Hcalls H.
  - injection H as <- <-. split; [done|]. now exists t.
  - apply Forall_cons in Hcalls as [[[s Hl] HPC] Hcalls]. cbn in Hl, HPC.
    cbn [addLabels] in H.
    apply bind_inv in H as ([r table1] & w1 & Hadd & H).
    destruct (addLabel_keeps_distinct _ _ _ _ _ _ _ _ Hd Hl HPC Hadd)
      as (Hsub & t1 & -> & Hd1).
    apply IH in H as (Hsub' & t' & -> & Hd'); [|done|].
    + split; [by etrans|]. now exists t'.
    + eapply Forall_impl; [exact Hcalls|]. intros [p pc] [[x Hx] Hpc].
      split; [|done]. exists x. eapply lookup_weaken; eauto.
Qed.

Lemma addLabel_keeps_ok t lbl PC s w r table' w' :
  table_ok (strings w) t -> strings w !! lbl = Some s ->
  addLabel (Some t) lbl PC w = Val ((r, table'), w') ->
  strings w ⊆ strings w' /\
  exists t', table' = Some t' /\ table_ok (strings w') t'.
Proof.
  intros Hok Hl H.
  destruct (addLabel_inv _ _ _ _ _ _ _ _ Hok Hl H)
    as [Hsub [->|(-> & Hf & t1 & -> & Hok1 & Hlive & Hn)]].
  - split; [done|]. exists t. split; [done|]. eapply table_ok_weaken; eauto.
  - split; [done|]. eexists. split; [reflexivity|].
    apply (table_ok_weaken (strings w)); [done|].
    eapply table_ok_appended; eauto.
Qed.

(** ** [tableInit] *)

Lemma tableInit_exists t w :
  tableInit (Some t) w
  = Val (Some (Table 0 (if hd true (grants w) then Some [None] else None) 0),
         World (strings w) (tail (grants w)) (stderr w)).
Proof.
  unfold tableInit. cbn [verifyTableExists]. unfold bind at 1.
  cbn [ret Z.eqb deref]. unfold bind at 1. cbn [ret].
  unfold malloc_entries, malloc, request, bind, ret.
  destruct w as [h [|[] gs] e]; reflexivity.
Qed.

Lemma tableInit_distinct h g :
  distinct_names h (Table 0 (if g : bool then Some [None] else None) 0).
Proof.
  split; [split|..].
  - destruct g; cbn; lia.
  - destruct g; cbn; lia.
  - apply Forall_nil_2.
  - apply NoDup_nil_2.
  - apply Forall_nil_2.
Qed.

(** ** Runs with an allocator that grants every request *)

Lemma generous_hd w : generous w -> hd true (grants w) = true.
Proof. unfold generous. destruct (grants w); [done|]. now inversion 1. Qed.

Lemma generous_tail w h e : generous w -> generous (World h (tail (grants w)) e).
Proof.
  unfold generous. cbn [grants]. destruct (grants w); [done|].
  now inversion 1.
Qed.

Lemma addLabel_defined t lbl PC s w :
  table_ok (strings w) t -> strings w !! lbl = Some s ->
  generous w -> nbrLabels t + 1 < 2 ^ 30 ->
  exists r t' w',
    addLabel (Some t) lbl PC w = Val ((r, Some t'), w')
    /\ generous w' /\ nbrLabels t' <= nbrLabels t + 1.
Proof.
  intros Hok Hl Hgen Hsmall.
  pose proof (generous_hd _ Hgen) as Hg.
  destruct (decide (first_match (strings w) s (live t) = -1)) as [Hf|Hf].
  - destruct (decide (nbrLabels t < capacity t)) as [Hroom|Hfull].
    + eexists _, _, _. split.
      * apply (addLabel_room t lbl PC s w); try done. unfold INT_MAX. lia.
      * split; [now apply generous_tail|]. cbn [appended nbrLabels]. lia.
    + eexists _, _, _. split.
      * apply (addLabel_grow t lbl PC s w); try done.
        -- apply (generous_hd (World (strings w) (tail (grants w)) (stderr w))).
           now apply generous_tail.
        -- lia.
        -- unfold INT_MAX. lia.
      * split.
        -- apply (generous_tail (World (strings w) (tail (grants w)) (stderr w))).
           now apply generous_tail.
        -- destruct Hok as [Hc _ _]. cbn [appended resized nbrLabels]. lia.
  - eexists _, _, _. split.
    + now apply (addLabel_duplicate t lbl PC s w).
    + split; [now apply generous_tail|lia].
Qed.

Lemma addLabels_defined calls : forall t w,
  table_ok (strings w) t ->
  Forall (fun c : Z * Z => is_Some (strings w !! c.1)) calls ->
  generous w ->
  nbrLabels t + Z.of_nat (length calls) < 2 ^ 30 ->
  exists t' w', addLabels (Some t) calls w = Val (Some t', w').
Proof.
  induction calls as [|[lbl PC] calls IH]; intros t w Hok Hcalls Hgen Hsmall.
  - now exists t, w.
  - apply Forall_cons in Hcalls as [[s Hl] Hcalls]. cbn in Hl.
    cbn [length] in Hsmall.
    destruct (addLabel_defined t lbl PC s w Hok Hl Hgen ltac:(lia))
      as (r & t1 & w1 & Hadd & Hgen1 & Hn1).
    destruct (addLabel_keeps_ok _ _ _ _ _ _ _ _ Hok Hl Hadd)
      as (Hsub & t1' & [= <-] & Hok1).
    destruct (IH t1 w1 Hok1) as (t' & w' & Hrun); [|done|lia|].
    + eapply Forall_impl; [exact Hcalls|]. intros [p pc] [x Hx].
      exists x. eapply lookup_weaken; eauto.
    + exists t', w'. cbn [addLabels]. erewrite bind_Val by exact Hadd.
      exact Hrun.
Qed.

Lemma first_match_unique h s (cs : list cell) (i : nat) e :
  NoDup (entry_name h <$> cs) ->
  cs !! i = Some (Some e) -> h !! label e = Some s ->
  first_match h s cs = address e.
Proof.
  revert i. induction cs as [|c cs IH]; intros i Hnd Hi Hs; [done|].
  cbn [fmap list_fmap] in Hnd. apply NoDup_cons in Hnd as [Hnotin Hnd].
  cbn [first_match]. destruct i as [|i]; cbn in Hi.
  - injection Hi as ->. cbn [entry_name]. now rewrite decide_True.
  - rewrite decide_False; [now apply (IH i)|].
    intros Hc. apply Hnotin. rewrite Hc.
    apply list_elem_of_fmap. exists (Some e). split; [now cbn|].
    apply list_elem_of_lookup. now exists i.
Qed.

(** While the buffers behind the live slots are left as they were, the
    table answers for every live entry with that entry's address, and with
    -1 for a name no live entry has. *)
Lemma findLabel_live_entry w t (i : nat) e s q :
  distinct_names (strings w) t ->
  live t !! i = Some (Some e) -> strings w !! label e = Some s ->
  strings w !! q = Some s ->
  findLabel (Some t) q w = Val (address e, w).
Proof.
  intros [Hok Hnd _] Hi Hs Hq.
  rewrite (findLabel_scan w t q s Hok Hq). f_equal. f_equal.
  now apply (first_match_unique _ _ _ i).
Qed.

Lemma findLabel_no_entry w t s q :
  table_ok (strings w) t ->
  Some s ∉ table_names (strings w) t -> strings w !! q = Some s ->
  findLabel (Some t) q w = Val (-1, w).
Proof.
  intros Hok Hn Hq. rewrite (findLabel_scan w t q s Hok Hq).
  now rewrite first_match_absent.
Qed.

(** ** Count and capacity *)

(** With its allocations granted, [addLabel] keeps the count within the
    capacity; so do [tableInit] and a granted [tableResize]
    ([tableInit_exists], [tableResize_granted]). *)
Lemma addLabel_keeps_capacity t lbl PC s w :
  table_ok (strings w) t -> strings w !! lbl = Some s ->
  hd true (grants w) = true -> hd true (tail (grants w)) = true ->
  nbrLabels t <= capacity t -> 2 * (nbrLabels t + 1) <= INT_MAX ->
  exists r t' w',
    addLabel (Some t) lbl PC w = Val ((r, Some t'), w')
    /\ nbrLabels t' <= capacity t'.
Proof.
  intros Hok Hl Hg Hg2 Hinv Hmax. pose proof Hok as [Hc _ _].
  destruct (decide (first_match (strings w) s (live t) = -1)) as [Hf|Hf].
  - destruct (decide (nbrLabels t < capacity t)) as [Hroom|Hfull].
    + eexists _, _, _. split.
      * apply (addLabel_room t lbl PC s w); try done. unfold INT_MAX in *. lia.
      * cbn [appended nbrLabels capacity]. lia.
    + eexists _, _, _. split.
      * apply (addLabel_grow t lbl PC s w); try done. lia.
      * cbn [appended resized nbrLabels capacity]. lia.
  - eexists _, _, _. split; [now apply (addLabel_duplicate t lbl PC s w)|done].
Qed.

(** ** What [addLabel] returns *)

Lemma addLabel_returns table lbl PC w r table' w' :
  addLabel table lbl PC w = Val ((r, table'), w') ->
  (r = 0 /\ table' = table
   /\ (table = None \/ exists gs, grants w = false :: gs))
  \/ (r = 1 /\ table <> None /\ hd true (grants w) = true
      /\ (table' = table \/ exists t1, table' = Some (appended t1 lbl PC))).
Proof.
  destruct table as [t|].
  2:{ intros [= <- <- <-]. left. split; [done|]. split; [done|]. now left. }
  unfold addLabel. cbn [verifyTableExists]. unfold bind at 1. cbn [ret Z.eqb].
  intros H. apply bind_inv in H as (dup & w1 & Hdup & H).
  unfold strdup in Hdup.
  apply bind_inv in Hdup as (s & w2 & Hs & Hdup).
  unfold load_string in Hs. destruct (strings w !! lbl); [|discriminate].
  injection Hs as <- <-.
  apply bind_inv in Hdup as (ok & w3 & Hreq & Hdup).
  unfold request in Hreq.
  assert (Hok : (ok = true /\ hd true (grants w) = true)
                \/ (ok = false /\ exists gs, grants w = false :: gs)).
  { destruct (grants w) as [|[] gs]; injection Hreq as <- <-; eauto. }
  destruct Hok as [[-> Hg]|[-> Hg]].
  - apply bind_inv in Hdup as (q & w4 & _ & Hdup). injection Hdup as <- <-.
    right. split; [|split; [done|split; [done|]]].
    + apply bind_inv in H as (found & w5 & _ & H).
      destruct (negb (found =? -1)).
      * apply bind_inv in H as (? & ? & _ & H).
        apply bind_inv in H as (? & ? & _ & H). now injection H.
      * cbn [deref] in H. unfold bind at 1 in H. cbn [ret] in H.
        apply bind_inv in H as ([t1|] & w6 & _ & H); [|discriminate].
        now apply append_inv in H as (-> & _).
    + apply bind_inv in H as (found & w5 & _ & H).
      destruct (negb (found =? -1)).
      * apply bind_inv in H as (? & ? & _ & H).
        apply bind_inv in H as (? & ? & _ & H). injection H as _ <- _.
        now left.
      * cbn [deref] in H. unfold bind at 1 in H. cbn [ret] in H.
        apply bind_inv in H as ([t1|] & w6 & _ & H); [|discriminate].
        apply append_inv in H as (_ & -> & _). right. now exists t1.
  - injection Hdup as <- <-. injection H as <- <- _.
    left. split; [done|]. split; [done|]. now right.
Qed.

(** ** The concrete tables *)

Lemma two_labels_ok : table_ok buffers two_labels.
Proof.
  split.
  - cbn. lia.
  - cbn. lia.
  - repeat constructor; eexists; reflexivity.
Defined.

(** The address -1 is [findLabel]'s "not found": a label entered with it
    is not seen by the test in [addLabel], and can be entered again.  The
    addresses of the assembler are program counters, 0, 4, 8, ... *)
Remark address_minus_one_reads_as_absent :
  exists t' w',
    session raw_table [(100, -1); (300, -1)] (World buffers [] [])
    = Val (Some t', w')
    /\ table_names (strings w') t' = [Some "A"; Some "A"]%string.
Proof. eexists _, _. vm_compute. split; reflexivity. Qed.

(** * The claims *)

(** C1, as worded, fails at the address -1.  The caller enters "A" with
    address -1 and then, from another buffer, "A" again: [findLabel]
    returns the stored -1, which [addLabel] reads as "not found", so the
    second call is no no-op.  Both calls return 1, the count goes from 1
    to 2 and the table holds the name twice. *)
Lemma addLabel_repeats_a_name_at_minus_one :
  exists t1 w1 t2 w2,
    first_label raw_table 100 (-1) (World buffers [] []) = Val ((1, Some t1), w1)
    /\ table_names (strings w1) t1 = [Some "A"%string]
    /\ strings w1 !! 300 = Some "A"%string
    /\ addLabel (Some t1) 300 (-1) w1 = Val ((1, Some t2), w2)
    /\ nbrLabels t1 = 1 /\ nbrLabels t2 = 2
    /\ table_names (strings w2) t2 = [Some "A"; Some "A"]%string
    /\ ~ NoDup (table_names (strings w2) t2).
Proof.
  eexists _, _, _, _.
  split; [vm_compute; reflexivity|].
  split; [vm_compute; reflexivity|].
  split; [vm_compute; reflexivity|].
  split; [vm_compute; reflexivity|].
  split; [vm_compute; reflexivity|].
  split; [vm_compute; reflexivity|].
  assert (Hnames : forall x y : list (option string), x = y ->
                     y = [Some "A"; Some "A"]%string -> ~ NoDup x).
  { intros x y -> -> Hnd. apply NoDup_cons in Hnd as [Hnotin _].
    apply Hnotin, list_elem_of_here. }
  split; [vm_compute; reflexivity|].
  eapply Hnames; [vm_compute; reflexivity|reflexivity].
Qed.

(** C1.  Take any table, initialise it and make any run of [addLabel]
    calls, each on a buffer that exists and with an address other than
    [findLabel]'s -1.  Whatever the allocator answers, when the run
    is defined the live slots designate pairwise distinct names, and one
    more [addLabel] with a name a live slot has (its copy granted) returns
    1 and leaves the table, and the buffers, exactly as they were.  With
    an allocator that grants every request, and fewer than 2^30 calls, the
    run is defined.  The runs are [addLabel] calls and nothing else: what
    a caller's later write to a buffer it has passed does is C2. *)
Theorem addLabel_never_repeats_a_name (t : LabelTable) (calls : list (Z * Z))
    (w : world) :
  Forall (call_ok (strings w)) calls ->
  (forall table' w',
     session t calls w = Val (table', w') ->
     exists t',
       table' = Some t'
       /\ NoDup (table_names (strings w') t')
       /\ forall lbl PC s,
            strings w' !! lbl = Some s ->
            Some s ∈ table_names (strings w') t' ->
            hd true (grants w') = true ->
            exists w'',
              addLabel (Some t') lbl PC w' = Val ((1, Some t'), w'')
              /\ strings w'' = strings w')
  /\ (generous w -> Z.of_nat (length calls) < 2 ^ 30 ->
      exists t' w', session t calls w = Val (Some t', w')).
Proof.
  intros Hcalls. unfold session. split.
  - intros table' w' H.
    erewrite bind_Val in H by apply tableInit_exists.
    apply addLabels_keep_distinct in H as (_ & t' & -> & Hd);
      [|apply tableInit_distinct|exact Hcalls].
    exists t'. split; [done|]. split; [apply Hd|].
    intros lbl PC s Hl Hin Hg. eexists. split.
    + apply (addLabel_duplicate t' lbl PC s w'); [apply Hd|done|done|].
      apply first_match_present; [exact Hin|apply Hd].
    + reflexivity.
  - intros Hgen Hlen.
    erewrite bind_Val by apply tableInit_exists.
    apply addLabels_defined.
    + apply tableInit_distinct.
    + eapply Forall_impl; [exact Hcalls|]. now intros c [Hc _].
    + now apply generous_tail.
    + cbn [nbrLabels]. lia.
Qed.

(** Three calls, the third with a second buffer that holds "A". *)
Lemma addLabel_never_repeats_a_name_witness :
  Forall (call_ok buffers) [(100, 0); (200, 4); (300, 8)]
  /\ exists t' w',
       session raw_table [(100, 0); (200, 4); (300, 8)] (World buffers [] [])
       = Val (Some t', w')
       /\ NoDup (table_names (strings w') t').
Proof.
  assert (Hcalls : Forall (call_ok buffers) [(100, 0); (200, 4); (300, 8)]).
  { repeat constructor; try (eexists; reflexivity); cbn; lia. }
  split; [exact Hcalls|].
  destruct (addLabel_never_repeats_a_name raw_table
              [(100, 0); (200, 4); (300, 8)] (World buffers [] []) Hcalls)
    as [Hthen Hruns].
  destruct Hruns as (t' & w' & Hrun); [constructor|cbn; lia|].
  destruct (Hthen _ _ Hrun) as (t1 & Heq & Hnd & _). injection Heq as <-.
  exists t', w'. split; [exact Hrun|exact Hnd].
Defined.

(** C2.  [addLabel] stores the caller's pointer, not the copy it has just
    made.  The caller adds the label in its buffer at 100 ("A") with
    address 0, then reads the next line into that buffer ("B").  Asked for
    "A" (the buffer at 300), [findLabel] now answers -1; asked for "B",
    which was never added, it answers 0. *)
Theorem findLabel_after_buffer_reuse :
  exists w',
    reuse_of_buffer raw_table 100 0 "B" 300 (World buffers [] [])
    = Val ((-1, 0), w')
    /\ strings w' !! 300 = Some "A"%string
    /\ strings w' !! 100 = Some "B"%string.
Proof. eexists. vm_compute. repeat split. Qed.

(** C3.  The two messages are swapped.  An [addLabel] of a name the table
    holds writes [ERROR2], the allocation message; an [addLabel] whose
    string copy is refused writes [ERROR1], the duplicate-label message. *)
Theorem addLabel_messages_swapped :
  (exists table' w',
     addLabel (Some one_label) 300 8 (World buffers [] [])
     = Val ((1, table'), w')
     /\ stderr w' = ["Error: cannot allocate space in memory.
"%string])
  /\ (exists table' w',
        addLabel (Some one_label) 200 4 (World buffers [false] [])
        = Val ((0, table'), w')
        /\ stderr w' = ["Error: a duplicate label was found.
"%string]).
Proof. split; eexists _, _; vm_compute; split; reflexivity. Qed.

(** C4.  On a table whose count lies within its entry array, and for every
    [int] new size: when the allocator grants the request for a new size
    that is not negative, the resize returns 1; and whenever it returns 1
    the capacity is exactly the new size, the count is min(count, newSize)
    (so it is cut to the new size when that is smaller), and the first
    min(count, newSize) slots are the ones the table had, in place, with
    their labels and addresses; nothing is reported and the buffers are
    left alone, so the names are the same too. *)
Theorem tableResize_preserves_prefix (t : LabelTable) (newSize : Z) (w : world) :
  0 <= nbrLabels t <= Z.of_nat (length (cells_of t)) ->
  INT_MIN <= newSize <= INT_MAX ->
  (0 <= newSize -> hd true (grants w) = true ->
   exists t' w', tableResize (Some t) newSize w = Val ((1, Some t'), w'))
  /\ (forall table' w',
        tableResize (Some t) newSize w = Val ((1, table'), w') ->
        exists t',
          table' = Some t'
          /\ capacity t' = newSize
          /\ nbrLabels t' = Z.min (nbrLabels t) newSize
          /\ (newSize < nbrLabels t -> nbrLabels t' = newSize)
          /\ (forall i : nat,
                (i < Z.to_nat (Z.min (nbrLabels t) newSize))%nat ->
                cells_of t' !! i = cells_of t !! i)
          /\ live t' = take (Z.to_nat (Z.min (nbrLabels t) newSize)) (live t)
          /\ length (cells_of t') = Z.to_nat newSize
          /\ strings w' = strings w /\ stderr w' = stderr w).
Proof.
  intros Hc Hn. split.
  { intros H0 Hg. eexists _, _. apply tableResize_granted; [done|lia|done]. }
  intros table' w' H.
  destruct (decide (0 <= newSize)) as [H0|Hneg].
  2:{ rewrite tableResize_negative in H by lia. discriminate. }
  destruct (grants w) as [|[] gs] eqn:Hg.
  3:{ erewrite tableResize_refused in H by (done || lia). discriminate. }
  all: rewrite tableResize_granted in H by (done || lia || now rewrite Hg).
  all: injection H as <- <-; exists (resized t newSize).
  all: split; [done|]; split; [done|]; split; [done|]; split; [cbn; lia|].
  all: split; [intros i Hi; now apply resized_lookup|].
  all: split; [|split; [apply resized_length; lia|done]].
  all: rewrite live_resized by done; unfold live; rewrite take_take.
  all: f_equal; lia.
Qed.

(** Shrinking the table of two labels to one slot. *)
Lemma tableResize_preserves_prefix_witness :
  (0 <= nbrLabels two_labels <= Z.of_nat (length (cells_of two_labels)))
  /\ (INT_MIN <= 1 <= INT_MAX)
  /\ exists t' w',
       tableResize (Some two_labels) 1 (World buffers [] []) = Val ((1, Some t'), w')
       /\ capacity t' = 1 /\ nbrLabels t' = 1
       /\ cells_of t' !! 0%nat = Some (Some (Entry 100 0)).
Proof.
  assert (H1 : 0 <= nbrLabels two_labels <= Z.of_nat (length (cells_of two_labels)))
    by (cbn; lia).
  assert (H2 : INT_MIN <= 1 <= INT_MAX) by (unfold INT_MIN, INT_MAX; lia).
  split; [exact H1|]. split; [exact H2|].
  destruct (tableResize_preserves_prefix two_labels 1 (World buffers [] []) H1 H2)
    as [Hruns Hthen].
  destruct Hruns as (t' & w' & Hrun); [lia|reflexivity|].
  destruct (Hthen _ _ Hrun) as (t1 & Heq & Hcap & Hcount & _ & Hcells & _).
  injection Heq as <-.
  exists t', w'. split; [exact Hrun|]. split; [exact Hcap|].
  split; [exact Hcount|]. rewrite Hcells; [reflexivity|]. cbn. lia.
Defined.

(** C5.  [addLabel] ignores what [tableResize] returns.  On a freshly
    initialised table, whose array has the one slot [tableInit] asked for,
    an [addLabel] whose growth is refused still writes slot 0 and counts
    it: the call completes with count 1 above capacity 0. *)
Theorem addLabel_count_above_capacity :
  exists r t' w',
    first_label raw_table 100 0 (World buffers [true; true; false] [])
    = Val ((r, Some t'), w')
    /\ nbrLabels t' = 1 /\ capacity t' = 0
    /\ ~ (capacity t' >= nbrLabels t').
Proof. eexists _, _, _. vm_compute. repeat split. intros H. now apply H. Qed.

(** C6.  On a table the functions can work on, an [addLabel] of a name no
    live slot has, made when count = capacity and granted its two
    allocations, returns 1 with the capacity at exactly 2 * (count + 1), in
    an entry array of that many slots; the new entry sits behind the old
    live slots and the count is one more, still below the new capacity. *)
Theorem addLabel_grows_full_table (t : LabelTable) (lbl PC : Z) (s : string)
    (w : world) :
  table_ok (strings w) t ->
  strings w !! lbl = Some s ->
  Some s ∉ table_names (strings w) t ->
  nbrLabels t = capacity t ->
  2 * (nbrLabels t + 1) <= INT_MAX ->
  hd true (grants w) = true ->
  hd true (tail (grants w)) = true ->
  exists t' w',
    addLabel (Some t) lbl PC w = Val ((1, Some t'), w')
    /\ capacity t' = 2 * (nbrLabels t + 1)
    /\ length (cells_of t') = Z.to_nat (2 * (nbrLabels t + 1))
    /\ nbrLabels t' = nbrLabels t + 1
    /\ live t' = live t ++ [Some (Entry lbl PC)]
    /\ nbrLabels t' < capacity t'
    /\ stderr w' = stderr w.
Proof.
  intros Hok Hl Hnew Hfull Hmax Hg Hg2. pose proof Hok as [Hc Hcap _].
  eexists _, _. split.
  { apply (addLabel_grow t lbl PC s w); try done.
    - now apply first_match_absent.
    - lia. }
  assert (Hlen : length (cells_of (resized t (2 * (nbrLabels t + 1))))
                 = Z.to_nat (2 * (nbrLabels t + 1)))
    by (apply resized_length; lia).
  split; [done|]. split.
  { cbn [appended cells_of entries default from_option id].
    fold (cells_of (resized t (2 * (nbrLabels t + 1)))).
    now rewrite length_insert. }
  split; [cbn [appended resized nbrLabels]; lia|].
  split.
  { rewrite live_appended.
    - now rewrite live_resized_larger by lia.
    - rewrite Hlen. cbn [resized nbrLabels]. lia. }
  split; [cbn [appended resized nbrLabels capacity]; lia|done].
Qed.

(** Adding "C" to the full table of two labels. *)
Lemma addLabel_grows_full_table_witness :
  table_ok buffers two_labels
  /\ buffers !! 400 = Some "C"%string
  /\ (Some "C"%string ∉ table_names buffers two_labels)
  /\ exists t' w',
       addLabel (Some two_labels) 400 8 (World buffers [] [])
       = Val ((1, Some t'), w')
       /\ capacity t' = 6 /\ nbrLabels t' = 3
       /\ live t' = live two_labels ++ [Some (Entry 400 8)].
Proof.
  assert (Hnew : Some "C"%string ∉ table_names buffers two_labels).
  { intros Hin. vm_compute in Hin.
    repeat (apply elem_of_cons in Hin as [Hin|Hin]; [discriminate|]).
    now apply elem_of_nil in Hin. }
  split; [exact two_labels_ok|]. split; [reflexivity|]. split; [exact Hnew|].
  destruct (addLabel_grows_full_table two_labels 400 8 "C" (World buffers [] []))
    as (t' & w' & Hrun & Hcap & _ & Hcount & Hlive & _).
  - exact two_labels_ok.
  - reflexivity.
  - exact Hnew.
  - reflexivity.
  - unfold INT_MAX. cbn. lia.
  - reflexivity.
  - reflexivity.
  - exists t', w'. repeat split; assumption.
Defined.

(** C7.  In the same run the refused growth is reported by [tableResize],
    yet [addLabel] returns 1, not 0, and the entry is appended. *)
Theorem addLabel_returns_1_when_growth_fails :
  exists t' w',
    first_label raw_table 100 0 (World buffers [true; true; false] [])
    = Val ((1, Some t'), w')
    /\ live t' = [Some (Entry 100 0)]
    /\ nbrLabels t' = 1
    /\ stderr w' = [ERROR2].
Proof. eexists _, _. vm_compute. repeat split. Qed.

(** C8.  Every operation first checks the table handle: on a null table it
    reports the missing table and gives its failure result ([findLabel] -1,
    [addLabel] 0, [tableResize] 0, [tableInit] nothing); there is no table
    to change, and neither the buffers nor the allocator are touched. *)
Theorem null_table_is_reported (w : world) (lbl PC newSize : Z) :
  let reported w := World (strings w) (grants w) (stderr w ++ [ERROR0]) in
  verifyTableExists None w = Val (0, reported w)
  /\ findLabel None lbl w = Val (-1, reported w)
  /\ addLabel None lbl PC w = Val ((0, None), reported w)
  /\ tableResize None newSize w = Val ((0, None), reported w)
  /\ tableInit None w = Val (None, reported (reported w)).
Proof. repeat split. Qed.

(** C9.  Whenever [addLabel] returns, it returns 0 or 1; it returns 0
    exactly when the table is null or the string copy is refused; when it
    returns 1 the table is either the one it was given (the insertion was
    skipped) or one with the entry appended.  Both happen: on the same
    table an [addLabel] of a name it holds and an [addLabel] of another
    name return the same 1. *)
Theorem addLabel_result_is_1_for_insert_and_skip :
  (forall table lbl PC w r table' w',
     addLabel table lbl PC w = Val ((r, table'), w') ->
     (r = 0 \/ r = 1)
     /\ (r = 0 <-> table = None \/ exists gs, grants w = false :: gs)
     /\ (r = 1 ->
         table' = table \/ exists t1, table' = Some (appended t1 lbl PC)))
  /\ (exists w',
        addLabel (Some one_label) 300 8 (World buffers [] [])
        = Val ((1, Some one_label), w'))
  /\ (exists w',
        addLabel (Some one_label) 200 4 (World buffers [] [])
        = Val ((1, Some (Table 2 (Some [Some (Entry 100 0); Some (Entry 200 4)]) 2)),
               w')).
Proof.
  split; [|split; eexists; vm_compute; reflexivity].
  intros table lbl PC w r table' w' H.
  destruct (addLabel_returns _ _ _ _ _ _ _ H)
    as [(-> & -> & Hwhy)|(-> & Hsome & Hg & Hwhat)].
  - split; [now left|]. split; [done|]. discriminate.
  - split; [now right|]. split; [|done]. split; [discriminate|].
    intros [->|[gs Hgs]]; [done|]. rewrite Hgs in Hg. discriminate.
Qed.

(** The skipped insertion of "A". *)
Lemma addLabel_result_is_1_for_insert_and_skip_witness :
  exists w',
    addLabel (Some one_label) 300 8 (World buffers [] [])
    = Val ((1, Some one_label), w')
    /\ (1 = 0 <-> Some one_label = None
                  \/ exists gs, grants (World buffers [] []) = false :: gs).
Proof.
  destruct addLabel_result_is_1_for_insert_and_skip as (Hall & [w' Hskip] & _).
  exists w'. split; [exact Hskip|].
  exact (proj1 (proj2 (Hall _ _ _ _ _ _ _ Hskip))).
Defined.

(** C10.  [tableInit] on any table that exists leaves count = 0 and
    capacity = 0, whatever the allocator answers.  The first [addLabel]
    on that table (its string copy granted) therefore calls [tableResize]
    with size 2 * (0 + 1) = 2: when that is granted the entry lands in slot
    0 of a two-slot array of capacity 2; when it is refused, after a
    [tableInit] whose own allocation was granted, the refusal is on the
    error stream. *)
Theorem first_addLabel_resizes (t : LabelTable) (w : world) :
  exists t0 w0,
    tableInit (Some t) w = Val (Some t0, w0)
    /\ nbrLabels t0 = 0 /\ capacity t0 = 0
    /\ forall lbl PC s,
         strings w0 !! lbl = Some s ->
         hd true (grants w0) = true ->
         (hd true (tail (grants w0)) = true ->
          exists w1,
            addLabel (Some t0) lbl PC w0
            = Val ((1, Some (Table 2 (Some [Some (Entry lbl PC); None]) 1)), w1)
            /\ stderr w1 = stderr w0)
         /\ (forall gs,
               tail (grants w0) = false :: gs -> hd true (grants w) = true ->
               exists w1,
                 addLabel (Some t0) lbl PC w0
                 = Val ((1, Some (Table 0 (Some [Some (Entry lbl PC)]) 1)), w1)
                 /\ stderr w1 = stderr w0 ++ [ERROR2]).
Proof.
  eexists _, _. split; [apply tableInit_exists|].
  split; [done|]. split; [done|].
  intros lbl PC s Hl Hg.
  set (t0 := Table 0 (if hd true (grants w) then Some [None] else None) 0).
  set (w0 := World (strings w) (tail (grants w)) (stderr w)) in *.
  assert (Hok : table_ok (strings w0) t0) by apply tableInit_distinct.
  split.
  - intros Hg2. eexists. split.
    + pose proof (addLabel_grow t0 lbl PC s w0 Hok Hl Hg Hg2) as H.
      rewrite H; [|done|done|unfold INT_MAX; cbn; lia].
      unfold t0. destruct (hd true (grants w)); reflexivity.
    + reflexivity.
  - intros gs Hgs Hinit. eexists. split.
    + pose proof (addLabel_grow_refused t0 lbl PC s w0 Hok Hl Hg gs Hgs) as H.
      rewrite H; [|done|done|unfold INT_MAX; cbn; lia|].
      * unfold t0. rewrite Hinit. reflexivity.
      * unfold t0. rewrite Hinit. cbn. lia.
    + reflexivity.
Qed.

(** The first label of a table, every allocation granted. *)
Lemma first_addLabel_resizes_witness :
  exists t0 w0 w1,
    tableInit (Some raw_table) (World buffers [] []) = Val (Some t0, w0)
    /\ strings w0 !! 100 = Some "A"%string
    /\ hd true (grants w0) = true
    /\ hd true (tail (grants w0)) = true
    /\ addLabel (Some t0) 100 0 w0
       = Val ((1, Some (Table 2 (Some [Some (Entry 100 0); None]) 1)), w1).
Proof.
  destruct (first_addLabel_resizes raw_table (World buffers [] []))
    as (t0 & w0 & Hinit & _ & _ & Hadd).
  assert (Hw0 : w0 = World buffers [] []).
  { rewrite tableInit_exists in Hinit. now injection Hinit as _ <-. }
  subst w0.
  destruct (Hadd 100 0 "A"%string eq_refl eq_refl) as [Hgranted _].
  destruct (Hgranted eq_refl) as (w1 & Hrun & _).
  exists t0, (World buffers [] []), w1.
  repeat split; [exact Hinit|exact Hrun].
Defined.

(** * Further properties of the code *)

(** ** [findLabel] reads only *)

Lemma findLabel_loop_pure es lbl n : forall i w r w',
  findLabel_loop es lbl i n w = Val (r, w') -> w' = w.
Proof.
  induction n as [|n IH]; intros i w r w' H.
  - now injection H.
  - cbn [findLabel_loop] in H.
    apply bind_inv in H as (e & w1 & He & H).
    assert (w1 = w) as ->.
    { unfold read_entry in He. destruct es as [cells|]; [|discriminate].
      destruct (cells !! i) as [[e'|]|]; try discriminate. now injection He. }
    apply bind_inv in H as (c & w2 & Hc & H).
    assert (w2 = w) as ->.
    { unfold strcmp, bind, load_string, ret in Hc.
      destruct (strings w !! label e); [|discriminate].
      destruct (strings w !! lbl); [|discriminate]. now injection Hc. }
    destruct (c =? SAME); [now injection H|]. now apply IH in H.
Qed.

(** X1.  [findLabel] on a table that exists changes nothing: whenever it
    returns, the buffers, the allocator and the error stream are as they
    were. *)
Theorem findLabel_changes_nothing (t : LabelTable) (lbl : Z) (w : world)
    (r : Z) (w' : world) :
  findLabel (Some t) lbl w = Val (r, w') -> w' = w.
Proof.
  unfold findLabel. cbn [verifyTableExists]. unfold bind at 1.
  cbn [ret Z.eqb deref]. unfold bind at 1. cbn [ret].
  apply findLabel_loop_pure.
Qed.

Lemma findLabel_changes_nothing_witness :
  exists r w',
    findLabel (Some two_labels) 200 (World buffers [] []) = Val (r, w')
    /\ w' = World buffers [] [].
Proof.
  assert (H : exists r w',
             findLabel (Some two_labels) 200 (World buffers [] []) = Val (r, w')).
  { eexists _, _. vm_compute. reflexivity. }
  destruct H as (r & w' & H). exists r, w'. split; [exact H|].
  exact (findLabel_changes_nothing _ _ _ _ _ H).
Defined.

(** ** The first match *)

Lemma first_match_at h s (cs : list cell) (i : nat) e :
  cs !! i = Some (Some e) -> h !! label e = Some s ->
  (forall (j : nat) c, (j < i)%nat -> cs !! j = Some c -> entry_name h c <> Some s) ->
  first_match h s cs = address e.
Proof.
  revert i. induction cs as [|c cs IH]; intros i Hi Hs Hbefore; [done|].
  cbn [first_match]. destruct i as [|i]; cbn in Hi.
  - injection Hi as ->. cbn [entry_name]. now rewrite decide_True.
  - rewrite decide_False by (apply (Hbefore 0%nat); [lia|done]).
    apply (IH i); [done|done|].
    intros j c' Hj Hc'. apply (Hbefore (S j)); [lia|done].
Qed.

Lemma first_match_cases h s (cs : list cell) :
  Forall (entry_ok h) cs ->
((Some s ∉ entry_name h <$> cs) /\ first_match h s cs = -1)
  \/ exists (i : nat) e,
       cs !! i = Some (Some e) /\ h !! label e = Some s
       /\ first_match h s cs = address e
       /\ forall (j : nat) c, (j < i)%nat -> cs !! j = Some c ->
                              entry_name h c <> Some s.
Proof.
  induction 1 as [|c cs [x Hx] Hok IH].
  - left. split; [apply not_elem_of_nil|done].
  - destruct c as [e|]; [|discriminate]. cbn [entry_name] in Hx.
    destruct (decide (x = s)) as [->|Hne].
    + right. exists 0%nat, e. split; [done|]. split; [done|].
      split; [|intros j c Hj; lia].
      cbn [first_match entry_name]. now rewrite decide_True.
    + destruct IH as [[Hnotin Hf]|(i & e' & Hi & Hs & Hf & Hbefore)].
      * left. split.
        -- cbn [fmap list_fmap entry_name]. rewrite Hx.
           apply not_elem_of_cons. split; [congruence|done].
        -- cbn [first_match entry_name]. rewrite Hx.
           rewrite decide_False by congruence. exact Hf.
      * right. exists (S i), e'. split; [done|]. split; [done|]. split.
        -- cbn [first_match entry_name]. rewrite Hx.
           rewrite decide_False by congruence. exact Hf.
        -- intros [|j] c Hj Hc; cbn in Hc.
           ++ injection Hc as <-. cbn [entry_name]. rewrite Hx. congruence.
           ++ apply (Hbefore j); [lia|done].
Qed.

(** X2.  On a table the functions can work on, [findLabel] returns -1 when
    no live entry has the name, and otherwise the address of the first live
    entry that has it, whatever later entries hold. *)
Theorem findLabel_returns_first_match (t : LabelTable) (lbl : Z) (s : string)
    (w : world) :
  table_ok (strings w) t ->
  strings w !! lbl = Some s ->
  exists a,
    findLabel (Some t) lbl w = Val (a, w)
    /\ (((Some s ∉ table_names (strings w) t) /\ a = -1)
        \/ exists (i : nat) e,
             live t !! i = Some (Some e)
             /\ strings w !! label e = Some s
             /\ a = address e
             /\ forall (j : nat) c, (j < i)%nat -> live t !! j = Some c ->
                                    entry_name (strings w) c <> Some s).
Proof.
  intros Hok Hl. eexists. split; [apply (findLabel_scan w t lbl s); assumption|].
  destruct (first_match_cases (strings w) s (live t)) as [[Hn Hf]|H];
    [apply Hok|left; split; [exact Hn|exact Hf]|].
  destruct H as (i & e & Hi & Hs & Hf & Hbefore).
  right. exists i, e. repeat split; assumption.
Qed.

Lemma findLabel_returns_first_match_witness :
  table_ok buffers two_labels
  /\ buffers !! 300 = Some "A"%string
  /\ findLabel (Some two_labels) 300 (World buffers [] [])
     = Val (0, World buffers [] []).
Proof.
  split; [exact two_labels_ok|]. split; [reflexivity|].
  destruct (findLabel_returns_first_match two_labels 300 "A" (World buffers [] [])
              two_labels_ok eq_refl) as (a & Hrun & _).
  rewrite Hrun. f_equal. f_equal.
  assert (H : findLabel (Some two_labels) 300 (World buffers [] [])
              = Val (0, World buffers [] [])) by (vm_compute; reflexivity).
  rewrite H in Hrun. now injection Hrun.
Defined.

(** ** Insertion and lookup *)

Lemma first_match_app h s (cs cs' : list cell) :
  first_match h s (cs ++ cs')
  = if decide (Some s ∈ entry_name h <$> cs)
    then first_match h s cs else first_match h s cs'.
Proof.
  induction cs as [|c cs IH].
  - cbn. rewrite decide_False; [done|]. apply not_elem_of_nil.
  - cbn [app first_match fmap list_fmap].
    destruct (decide (entry_name h c = Some s)) as [Heq|Hne].
    + rewrite decide_True; [done|]. rewrite Heq. apply list_elem_of_here.
    + rewrite IH. destruct (decide (Some s ∈ entry_name h <$> cs)) as [Hin|Hn].
      * rewrite decide_True; [done|]. now apply list_elem_of_further.
      * rewrite decide_False; [done|].
        apply not_elem_of_cons. split; [congruence|done].
Qed.

(** An [addLabel] that takes the path of a new name, its allocations
    granted. *)
Lemma addLabel_inserts t lbl PC s w :
  table_ok (strings w) t -> strings w !! lbl = Some s ->
  hd true (grants w) = true -> hd true (tail (grants w)) = true ->
  first_match (strings w) s (live t) = -1 ->
  2 * (nbrLabels t + 1) <= INT_MAX ->
  exists t' w',
    addLabel (Some t) lbl PC w = Val ((1, Some t'), w')
    /\ live t' = live t ++ [Some (Entry lbl PC)]
    /\ nbrLabels t' = nbrLabels t + 1
    /\ table_ok (strings w') t'
    /\ strings w' = <[fresh_addr (strings w) := s]> (strings w)
    /\ stderr w' = stderr w
    /\ (nbrLabels t <= capacity t -> nbrLabels t' <= capacity t')
    /\ (generous w -> generous w').
Proof.
  intros Hok Hl Hg Hg2 Hf Hmax. pose proof Hok as [Hc Hcap Hlive].
  assert (Hl' : <[fresh_addr (strings w) := s]> (strings w) !! lbl = Some s).
  { eapply lookup_weaken; [exact Hl|apply fresh_addr_subseteq]. }
  destruct (decide (nbrLabels t < capacity t)) as [Hroom|Hfull].
  - eexists _, _. split.
    { apply (addLabel_room t lbl PC s w); try done. unfold INT_MAX in *. lia. }
    split; [apply live_appended; lia|]. split; [done|]. split.
    { apply (table_ok_appended _ _ _ _ s); [|lia|exact Hl'].
      eapply table_ok_weaken; [apply fresh_addr_subseteq|exact Hok]. }
    split; [done|]. split; [done|].
    split; [cbn [appended nbrLabels capacity]; lia|].
    intros Hgen. now apply generous_tail.
  - assert (Hok' : table_ok (strings w) (resized t (2 * (nbrLabels t + 1))))
      by (apply table_ok_resized; [done|lia]).
    assert (Hlen : length (cells_of (resized t (2 * (nbrLabels t + 1))))
                   = Z.to_nat (2 * (nbrLabels t + 1)))
      by (apply resized_length; lia).
    eexists _, _. split.
    { apply (addLabel_grow t lbl PC s w); try done. lia. }
    split.
    { rewrite live_appended.
      - now rewrite live_resized_larger by lia.
      - rewrite Hlen. cbn [resized nbrLabels]. lia. }
    split; [cbn [appended resized nbrLabels]; lia|]. split.
    { apply (table_ok_appended _ _ _ _ s); [| |exact Hl'].
      - eapply table_ok_weaken; [apply fresh_addr_subseteq|exact Hok'].
      - rewrite Hlen. cbn [resized nbrLabels]. lia. }
    split; [done|]. split; [done|].
    split; [cbn [appended resized nbrLabels capacity]; lia|].
    intros Hgen.
    apply (generous_tail (World (strings w) (tail (grants w)) (stderr w))).
    now apply generous_tail.
Qed.

(** X3.  Insert, then look up.  After an [addLabel] of a name no live entry
    has (its allocations granted), [findLabel] with any buffer that holds
    that name returns the address just given, as long as the buffers are
    left as they are. *)
Theorem findLabel_finds_the_added_label (t : LabelTable) (lbl PC q : Z)
    (s : string) (w : world) :
  table_ok (strings w) t ->
  strings w !! lbl = Some s ->
  strings w !! q = Some s ->
  Some s ∉ table_names (strings w) t ->
  hd true (grants w) = true -> hd true (tail (grants w)) = true ->
  2 * (nbrLabels t + 1) <= INT_MAX ->
  exists t' w',
    addLabel (Some t) lbl PC w = Val ((1, Some t'), w')
    /\ findLabel (Some t') q w' = Val (PC, w').
Proof.
  intros Hok Hl Hq Hnew Hg Hg2 Hmax.
  destruct (addLabel_inserts t lbl PC s w Hok Hl Hg Hg2
              (first_match_absent _ _ _ Hnew) Hmax)
    as (t' & w' & Hadd & Hlive & _ & Hok' & Hstr & _).
  exists t', w'. split; [exact Hadd|].
  assert (Hsub : strings w ⊆ strings w')
    by (rewrite Hstr; apply fresh_addr_subseteq).
  rewrite (findLabel_scan w' t' q s Hok'
             (lookup_weaken _ _ _ _ Hq Hsub)).
  f_equal. f_equal. rewrite Hlive, first_match_app.
  rewrite (entry_names_weaken (strings w) (strings w')) by (done || apply Hok).
  rewrite decide_False by exact Hnew.
  cbn [first_match entry_name label entry_address fmap option_fmap option_map
       default from_option id address].
  rewrite (lookup_weaken _ _ _ _ Hl Hsub). now rewrite decide_True.
Qed.

Lemma findLabel_finds_the_added_label_witness :
  table_ok buffers one_label
  /\ buffers !! 200 = Some "B"%string
  /\ (Some "B"%string ∉ table_names buffers one_label)
  /\ exists t' w',
       addLabel (Some one_label) 200 4 (World buffers [] []) = Val ((1, Some t'), w')
       /\ findLabel (Some t') 200 w' = Val (4, w').
Proof.
  assert (Hok : table_ok buffers one_label).
  { split; [cbn; lia|cbn; lia|]. repeat constructor. eexists. reflexivity. }
  assert (Hnew : Some "B"%string ∉ table_names buffers one_label).
  { intros Hin. vm_compute in Hin.
    repeat (apply elem_of_cons in Hin as [Hin|Hin]; [discriminate|]).
    now apply elem_of_nil in Hin. }
  split; [exact Hok|]. split; [reflexivity|]. split; [exact Hnew|].
  apply (findLabel_finds_the_added_label one_label 200 4 200 "B"
           (World buffers [] [])); done.
Defined.

(** X4.  An [addLabel] (its allocations granted) does not change what
    [findLabel] answers for any other name, whether the label is entered or
    turned down as a duplicate. *)
Theorem addLabel_keeps_other_answers (t : LabelTable) (lbl PC q : Z)
    (s s' : string) (w : world) :
  table_ok (strings w) t ->
  strings w !! lbl = Some s ->
  strings w !! q = Some s' ->
  s' <> s ->
  hd true (grants w) = true -> hd true (tail (grants w)) = true ->
  2 * (nbrLabels t + 1) <= INT_MAX ->
  exists r t' w' a,
    addLabel (Some t) lbl PC w = Val ((r, Some t'), w')
    /\ findLabel (Some t) q w = Val (a, w)
    /\ findLabel (Some t') q w' = Val (a, w').
Proof.
  intros Hok Hl Hq Hne Hg Hg2 Hmax.
  destruct (decide (first_match (strings w) s (live t) = -1)) as [Hf|Hf].
  - destruct (addLabel_inserts t lbl PC s w Hok Hl Hg Hg2 Hf Hmax)
      as (t' & w' & Hadd & Hlive & _ & Hok' & Hstr & _).
    exists 1, t', w', (first_match (strings w) s' (live t)).
    split; [exact Hadd|]. split; [now apply findLabel_scan|].
    assert (Hsub : strings w ⊆ strings w')
      by (rewrite Hstr; apply fresh_addr_subseteq).
    rewrite (findLabel_scan w' t' q s' Hok' (lookup_weaken _ _ _ _ Hq Hsub)).
    f_equal. f_equal. rewrite Hlive, first_match_app.
    rewrite (entry_names_weaken (strings w) (strings w')) by (done || apply Hok).
    rewrite (first_match_weaken (strings w) (strings w')) by (done || apply Hok).
    destruct (decide (Some s' ∈ entry_name (strings w) <$> live t)) as [Hin|Hn];
      [done|].
    rewrite (first_match_absent _ _ _ Hn).
    cbn [first_match entry_name label].
    rewrite (lookup_weaken _ _ _ _ Hl Hsub). rewrite decide_False; [done|].
    congruence.
  - exists 1, t, (World (strings w) (tail (grants w)) (stderr w ++ [ERROR2])),
      (first_match (strings w) s' (live t)).
    split; [now apply (addLabel_duplicate t lbl PC s w)|].
    split; [now apply findLabel_scan|].
    now apply (findLabel_scan
                 (World (strings w) (tail (grants w)) (stderr w ++ [ERROR2]))).
Qed.

Lemma addLabel_keeps_other_answers_witness :
  table_ok buffers one_label
  /\ buffers !! 200 = Some "B"%string /\ buffers !! 300 = Some "A"%string
  /\ exists r t' w',
       addLabel (Some one_label) 200 4 (World buffers [] []) = Val ((r, Some t'), w')
       /\ findLabel (Some one_label) 300 (World buffers [] [])
          = Val (0, World buffers [] [])
       /\ findLabel (Some t') 300 w' = Val (0, w').
Proof.
  assert (Hok : table_ok buffers one_label).
  { split; [cbn; lia|cbn; lia|]. repeat constructor. eexists. reflexivity. }
  split; [exact Hok|]. split; [reflexivity|]. split; [reflexivity|].
  assert (Hne : "A"%string <> "B"%string) by discriminate.
  assert (Hmax : 2 * (nbrLabels one_label + 1) <= INT_MAX)
    by (unfold INT_MAX; cbn; lia).
  destruct (addLabel_keeps_other_answers one_label 200 4 300 "B" "A"
              (World buffers [] []) Hok eq_refl eq_refl Hne eq_refl eq_refl Hmax)
    as (r & t' & w' & a & Hadd & Hbefore & Hafter).
  assert (H : findLabel (Some one_label) 300 (World buffers [] [])
              = Val (0, World buffers [] [])) by (vm_compute; reflexivity).
  rewrite H in Hbefore. injection Hbefore as <-.
  exists r, t', w'. split; [exact Hadd|]. split; [exact H|exact Hafter].
Defined.

(** X9.  The copy [addLabel] makes with [strdup] is never put in the table.
    After an insertion the store has one buffer more, the copy, at an
    address that was free, and nothing that was in the store has changed;
    the live slots are the old ones followed by the new entry, whose
    label is the pointer the caller passed, not the copy; no live entry
    points to the copy. *)
Theorem addLabel_leaks_its_copy (t : LabelTable) (lbl PC : Z) (s : string)
    (w : world) :
  table_ok (strings w) t ->
  strings w !! lbl = Some s ->
  Some s ∉ table_names (strings w) t ->
  hd true (grants w) = true -> hd true (tail (grants w)) = true ->
  2 * (nbrLabels t + 1) <= INT_MAX ->
  exists t' w' dup,
    addLabel (Some t) lbl PC w = Val ((1, Some t'), w')
    /\ strings w !! dup = None
    /\ strings w' = <[dup := s]> (strings w)
    /\ live t' = live t ++ [Some (Entry lbl PC)]
    /\ nbrLabels t' = nbrLabels t + 1
    /\ lbl <> dup
    /\ Forall (fun c => forall e, c = Some e -> label e <> dup) (live t').
Proof.
  intros Hok Hl Hnew Hg Hg2 Hmax.
  destruct (addLabel_inserts t lbl PC s w Hok Hl Hg Hg2
              (first_match_absent _ _ _ Hnew) Hmax)
    as (t' & w' & Hadd & Hlive & Hn & _ & Hstr & _).
  assert (Hlbl : lbl <> fresh_addr (strings w)).
  { intros Heq. rewrite Heq, fresh_addr_free in Hl. discriminate. }
  exists t', w', (fresh_addr (strings w)).
  split; [exact Hadd|]. split; [apply fresh_addr_free|]. split; [exact Hstr|].
  split; [exact Hlive|]. split; [exact Hn|]. split; [exact Hlbl|].
  rewrite Hlive. apply Forall_app. split.
  - eapply Forall_impl; [apply Hok|]. intros c [x Hx] e -> Heq.
    cbn [entry_name] in Hx. rewrite Heq, fresh_addr_free in Hx. discriminate.
  - apply Forall_singleton. intros e [= <-]. exact Hlbl.
Qed.

Lemma addLabel_leaks_its_copy_witness :
  table_ok buffers two_labels
  /\ buffers !! 400 = Some "C"%string
  /\ (Some "C"%string ∉ table_names buffers two_labels)
  /\ exists t' w' dup,
       addLabel (Some two_labels) 400 8 (World buffers [] []) = Val ((1, Some t'), w')
       /\ buffers !! dup = None
       /\ strings w' = <[dup := "C"%string]> buffers
       /\ live t' = live two_labels ++ [Some (Entry 400 8)]
       /\ 400 <> dup.
Proof.
  assert (Hnew : Some "C"%string ∉ table_names buffers two_labels).
  { intros Hin. vm_compute in Hin.
    repeat (apply elem_of_cons in Hin as [Hin|Hin]; [discriminate|]).
    now apply elem_of_nil in Hin. }
  split; [exact two_labels_ok|]. split; [reflexivity|]. split; [exact Hnew|].
  assert (Hmax : 2 * (nbrLabels two_labels + 1) <= INT_MAX)
    by (unfold INT_MAX; cbn; lia).
  destruct (addLabel_leaks_its_copy two_labels 400 8 "C" (World buffers [] [])
              two_labels_ok eq_refl Hnew eq_refl eq_refl Hmax)
    as (t' & w' & dup & Hadd & Hfree & Hstr & Hlive & _ & Hne & _).
  exists t', w', dup. repeat split; assumption.
Defined.

(** X8.  When the growth is refused and the entry array has no slot at
    [nbrLabels], [addLabel] still writes there: the write is past the end
    of the array, and the behaviour is undefined. *)
Theorem addLabel_writes_past_the_array (t : LabelTable) (lbl PC : Z)
    (s : string) (w : world) (gs : list bool) :
  table_ok (strings w) t ->
  strings w !! lbl = Some s ->
  Some s ∉ table_names (strings w) t ->
  nbrLabels t = Z.of_nat (length (cells_of t)) ->
  2 * (nbrLabels t + 1) <= INT_MAX ->
  hd true (grants w) = true -> tail (grants w) = false :: gs ->
  addLabel (Some t) lbl PC w = Undef.
Proof.
  intros Hok Hl Hnew Hfull Hmax Hg Hg2. pose proof Hok as [Hc Hcap _].
  unfold addLabel. cbn [verifyTableExists]. unfold bind at 1. cbn [ret Z.eqb].
  erewrite bind_Val by (apply strdup_granted; eassumption). cbv beta iota.
  erewrite bind_Val by (now apply findLabel_copied). cbv beta.
  rewrite (first_match_absent _ _ _ Hnew), Z.eqb_refl. cbn [negb deref].
  unfold bind at 1. cbn [ret].
  replace (nbrLabels t >=? capacity t) with true
    by (symmetry; rewrite Z.geb_leb; apply Z.leb_le; lia).
  assert (Hint : INT_MIN <= nbrLabels t + 1 <= INT_MAX
                 /\ INT_MIN <= 2 * (nbrLabels t + 1) <= INT_MAX)
    by (unfold INT_MIN, INT_MAX in *; lia).
  erewrite bind_Val.
  2:{ erewrite bind_Val by (apply int_Val, Hint).
      erewrite bind_Val by (apply int_Val, Hint).
      erewrite bind_Val by (apply tableResize_refused; [lia|exact Hg2]).
      reflexivity. }
  cbn [deref]. unfold bind at 1. cbn [ret]. unfold bind at 1, write_entry.
  unfold cells_of in Hfull. destruct (entries t) as [cells|]; [|reflexivity].
  cbn [default from_option id] in Hfull.
  replace (nbrLabels t <? Z.of_nat (length cells)) with false
    by (symmetry; apply Z.ltb_ge; lia).
  now rewrite andb_false_r.
Qed.

Lemma addLabel_writes_past_the_array_witness :
  table_ok buffers two_labels
  /\ buffers !! 400 = Some "C"%string
  /\ (Some "C"%string ∉ table_names buffers two_labels)
  /\ addLabel (Some two_labels) 400 8 (World buffers [true; false] []) = Undef.
Proof.
  assert (Hnew : Some "C"%string ∉ table_names buffers two_labels).
  { intros Hin. vm_compute in Hin.
    repeat (apply elem_of_cons in Hin as [Hin|Hin]; [discriminate|]).
    now apply elem_of_nil in Hin. }
  split; [exact two_labels_ok|]. split; [reflexivity|]. split; [exact Hnew|].
  assert (Hmax : 2 * (nbrLabels two_labels + 1) <= INT_MAX)
    by (unfold INT_MAX; cbn; lia).
  exact (addLabel_writes_past_the_array two_labels 400 8 "C"
           (World buffers [true; false] []) [] two_labels_ok eq_refl Hnew
           eq_refl Hmax eq_refl eq_refl).
Defined.

(** ** Resizing and lookup *)

Lemma live_resized_take t newSize :
  0 <= nbrLabels t <= Z.of_nat (length (cells_of t)) -> 0 <= newSize ->
  live (resized t newSize) = take (Z.to_nat newSize) (live t).
Proof.
  intros Hc Hn. rewrite live_resized by done. unfold live.
  rewrite take_take. f_equal. lia.
Qed.

Lemma findLabel_resized t newSize q s w w' :
  table_ok (strings w) t -> strings w !! q = Some s ->
  0 <= newSize -> strings w' = strings w ->
  findLabel (Some (resized t newSize)) q w'
  = Val (first_match (strings w) s (take (Z.to_nat newSize) (live t)), w').
Proof.
  intros Hok Hq Hn Hstr.
  rewrite (findLabel_scan w' (resized t newSize) q s).
  - rewrite Hstr, live_resized_take by (apply Hok || done). reflexivity.
  - rewrite Hstr. now apply table_ok_resized.
  - now rewrite Hstr.
Qed.

(** X5.  Growing does not disturb lookups: after a granted [tableResize]
    to a size that is not below the count, [findLabel] answers for every
    name what it answered before. *)
Theorem findLabel_survives_growth (t : LabelTable) (newSize q : Z) (s : string)
    (w : world) :
  table_ok (strings w) t ->
  strings w !! q = Some s ->
  nbrLabels t <= newSize <= INT_MAX ->
  hd true (grants w) = true ->
  exists t' w' a,
    tableResize (Some t) newSize w = Val ((1, Some t'), w')
    /\ findLabel (Some t) q w = Val (a, w)
    /\ findLabel (Some t') q w' = Val (a, w').
Proof.
  intros Hok Hq Hn Hg. pose proof Hok as [Hc _ _].
  eexists _, _, _. split; [apply tableResize_granted; [done|lia|done]|].
  split; [apply (findLabel_scan w t q s); assumption|].
  rewrite (findLabel_resized t newSize q s w) by (done || lia).
  rewrite (take_ge (live t)); [done|].
  unfold live. rewrite length_take. lia.
Qed.

Lemma findLabel_survives_growth_witness :
  table_ok buffers two_labels
  /\ buffers !! 200 = Some "B"%string
  /\ exists t' w' a,
       tableResize (Some two_labels) 5 (World buffers [] []) = Val ((1, Some t'), w')
       /\ findLabel (Some two_labels) 200 (World buffers [] [])
          = Val (a, World buffers [] [])
       /\ findLabel (Some t') 200 w' = Val (a, w').
Proof.
  split; [exact two_labels_ok|]. split; [reflexivity|].
  assert (Hn : nbrLabels two_labels <= 5 <= INT_MAX)
    by (unfold INT_MAX; cbn; lia).
  exact (findLabel_survives_growth two_labels 5 200 "B" (World buffers [] [])
           two_labels_ok eq_refl Hn eq_refl).
Defined.

(** X6.  Shrinking forgets: after a granted [tableResize] to a size below
    the count, a name that only entries at or past the new size have is not
    found any more. *)
Theorem tableResize_forgets_the_tail (t : LabelTable) (newSize q : Z)
    (s : string) (w : world) :
  table_ok (strings w) t ->
  strings w !! q = Some s ->
  0 <= newSize <= INT_MAX ->
  hd true (grants w) = true ->
  Some s ∉ entry_name (strings w) <$> take (Z.to_nat newSize) (live t) ->
  exists t' w',
    tableResize (Some t) newSize w = Val ((1, Some t'), w')
    /\ findLabel (Some t') q w' = Val (-1, w').
Proof.
  intros Hok Hq Hn Hg Hnotin. pose proof Hok as [Hc _ _].
  eexists _, _. split; [apply tableResize_granted; [done|lia|done]|].
  rewrite (findLabel_resized t newSize q s w) by (done || lia).
  now rewrite first_match_absent.
Qed.

Lemma tableResize_forgets_the_tail_witness :
  table_ok buffers two_labels
  /\ buffers !! 200 = Some "B"%string
  /\ findLabel (Some two_labels) 200 (World buffers [] [])
     = Val (4, World buffers [] [])
  /\ exists t' w',
       tableResize (Some two_labels) 1 (World buffers [] []) = Val ((1, Some t'), w')
       /\ findLabel (Some t') 200 w' = Val (-1, w').
Proof.
  split; [exact two_labels_ok|]. split; [reflexivity|].
  split; [vm_compute; reflexivity|].
  assert (Hn : 0 <= 1 <= INT_MAX) by (unfold INT_MAX; lia).
  assert (Hnotin : Some "B"%string
                   ∉ entry_name buffers <$> take (Z.to_nat 1) (live two_labels)).
  { intros Hin. vm_compute in Hin.
    repeat (apply elem_of_cons in Hin as [Hin|Hin]; [discriminate|]).
    now apply elem_of_nil in Hin. }
  exact (tableResize_forgets_the_tail two_labels 1 200 "B" (World buffers [] [])
           two_labels_ok eq_refl Hn eq_refl Hnotin).
Defined.

(** X7.  [tableInit] empties the table: whatever it held, and whatever the
    allocator answers, afterwards [findLabel] returns -1 for every pointer
    it is given, without reading through it. *)
Theorem tableInit_forgets_every_label (t : LabelTable) (w : world) (q : Z) :
  exists t0 w0,
    tableInit (Some t) w = Val (Some t0, w0)
    /\ findLabel (Some t0) q w0 = Val (-1, w0)
    /\ strings w0 = strings w /\ stderr w0 = stderr w.
Proof.
  eexists _, _. split; [apply tableInit_exists|]. split; [|done]. reflexivity.
Qed.

(** ** A resize that fails *)

Lemma malloc_entries_world bytes w o w' :
  malloc_entries bytes w = Val (o, w') ->
  strings w' = strings w /\ stderr w' = stderr w.
Proof.
  unfold malloc_entries, malloc, bind, request, ret.
  destruct (PTRDIFF_MAX <? bytes).
  - now intros [= _ <-].
  - destruct (grants w) as [|g gs]; now intros [= _ <-].
Qed.

(** X13.  [tableResize] returns 0 on a table that exists only when the
    allocation fails, and then it has reported [ERROR2] and left the table
    and the buffers as they were.  A negative size always ends this way. *)
Theorem tableResize_failure_changes_nothing (t : LabelTable) (newSize : Z)
    (w : world) :
  (forall table' w',
     tableResize (Some t) newSize w = Val ((0, table'), w') ->
     table' = Some t /\ strings w' = strings w
     /\ stderr w' = stderr w ++ [ERROR2])
  /\ (INT_MIN <= newSize < 0 ->
      exists w', tableResize (Some t) newSize w = Val ((0, Some t), w')).
Proof.
  split.
  - unfold tableResize. cbn [verifyTableExists]. unfold bind at 1.
    cbn [ret Z.eqb]. intros table' w' H.
    apply bind_inv in H as (o & w1 & Hm & H).
    apply malloc_entries_world in Hm as [Hs He].
    destruct o as [new|].
    + apply bind_inv in H as (t1 & w2 & _ & H).
      apply bind_inv in H as ([new' n] & w3 & _ & H). discriminate.
    + injection H as <- <-. cbn [strings stderr]. now rewrite Hs, He.
  - intros Hneg. eexists. now apply tableResize_negative.
Qed.

Lemma tableResize_failure_changes_nothing_witness :
  exists w',
    tableResize (Some two_labels) 9 (World buffers [false] []) = Val ((0, Some two_labels), w')
    /\ strings w' = buffers /\ stderr w' = [ERROR2].
Proof.
  assert (H : exists table' w',
             tableResize (Some two_labels) 9 (World buffers [false] [])
             = Val ((0, table'), w')).
  { eexists _, _. vm_compute. reflexivity. }
  destruct H as (table' & w' & H).
  destruct (tableResize_failure_changes_nothing two_labels 9
              (World buffers [false] [])) as [Hfail _].
  destruct (Hfail _ _ H) as (-> & Hs & He).
  exists w'. split; [exact H|]. split; [exact Hs|exact He].
Defined.

(** ** Runs of [addLabel] with every allocation granted *)

Lemma addLabel_step_granted t lbl PC s w :
  table_ok (strings w) t -> strings w !! lbl = Some s ->
  generous w -> nbrLabels t + 1 < 2 ^ 30 ->
  exists r t' w',
    addLabel (Some t) lbl PC w = Val ((r, Some t'), w')
    /\ table_ok (strings w') t'
    /\ strings w ⊆ strings w'
    /\ generous w'
    /\ nbrLabels t' <= nbrLabels t + 1
    /\ (nbrLabels t <= capacity t -> nbrLabels t' <= capacity t').
Proof.
  intros Hok Hl Hgen Hsmall.
  pose proof (generous_hd _ Hgen) as Hg.
  pose proof (generous_hd _ (generous_tail w (strings w) (stderr w) Hgen)) as Hg2.
  cbn [grants] in Hg2.
  destruct (decide (first_match (strings w) s (live t) = -1)) as [Hf|Hf].
  - destruct (addLabel_inserts t lbl PC s w Hok Hl Hg Hg2 Hf)
      as (t' & w' & Hadd & _ & Hn & Hok' & Hstr & _ & Hcap & Hgen');
      [unfold INT_MAX; lia|].
    exists 1, t', w'. split; [exact Hadd|]. split; [exact Hok'|].
    split; [rewrite Hstr; apply fresh_addr_subseteq|].
    split; [now apply Hgen'|]. split; [lia|exact Hcap].
  - exists 1, t, (World (strings w) (tail (grants w)) (stderr w ++ [ERROR2])).
    split; [now apply (addLabel_duplicate t lbl PC s w)|].
    split; [exact Hok|]. split; [done|].
    split; [now apply generous_tail|]. split; [lia|done].
Qed.

Lemma addLabels_keep_capacity calls : forall t w,
  table_ok (strings w) t ->
  Forall (fun c : Z * Z => is_Some (strings w !! c.1)) calls ->
  generous w ->
  nbrLabels t + Z.of_nat (length calls) < 2 ^ 30 ->
  nbrLabels t <= capacity t ->
  exists t' w',
    addLabels (Some t) calls w = Val (Some t', w')
    /\ table_ok (strings w') t'
    /\ nbrLabels t' <= capacity t'
    /\ nbrLabels t' <= nbrLabels t + Z.of_nat (length calls).
Proof.
  induction calls as [|[lbl PC] calls IH]; intros t w Hok Hcalls Hgen Hsmall Hcap.
  - exists t, w. cbn [length]. repeat split; (done || apply Hok || lia).
  - apply Forall_cons in Hcalls as [[s Hl] Hcalls]. cbn in Hl.
    cbn [length] in Hsmall.
    destruct (addLabel_step_granted t lbl PC s w Hok Hl Hgen ltac:(lia))
      as (r & t1 & w1 & Hadd & Hok1 & Hsub & Hgen1 & Hn1 & Hcap1).
    destruct (IH t1 w1 Hok1) as (t' & w' & Hrun & Hok' & Hcap' & Hn');
      [|done|lia|now apply Hcap1|].
    + eapply Forall_impl; [exact Hcalls|]. intros [p pc] [x Hx].
      exists x. eapply lookup_weaken; eauto.
    + exists t', w'. cbn [addLabels]. erewrite bind_Val by exact Hadd.
      split; [exact Hrun|]. split; [exact Hok'|]. split; [exact Hcap'|].
      cbn [length]. lia.
Qed.

(** X12.  With an allocator that grants every request, a table initialised
    and then filled by any run of fewer than 2^30 [addLabel] calls on
    buffers that exist ends with its count within its capacity, its
    capacity within its entry array, and at most one entry per call. *)
Theorem session_keeps_count_within_capacity (t : LabelTable)
    (calls : list (Z * Z)) (w : world) :
  Forall (fun c : Z * Z => is_Some (strings w !! c.1)) calls ->
  generous w ->
  Z.of_nat (length calls) < 2 ^ 30 ->
  exists t' w',
    session t calls w = Val (Some t', w')
    /\ 0 <= nbrLabels t' <= capacity t'
    /\ capacity t' <= Z.of_nat (length (cells_of t'))
    /\ nbrLabels t' <= Z.of_nat (length calls).
Proof.
  intros Hcalls Hgen Hsmall. unfold session.
  erewrite bind_Val by apply tableInit_exists.
  destruct (addLabels_keep_capacity calls
              (Table 0 (if hd true (grants w) then Some [None] else None) 0)
              (World (strings w) (tail (grants w)) (stderr w)))
    as (t' & w' & Hrun & [Hc Hcap _] & Hinv & Hn); try done.
  - apply tableInit_distinct.
  - now apply generous_tail.
  - exists t', w'. cbn [nbrLabels] in Hn. repeat split; (done || lia).
Qed.

Lemma session_keeps_count_within_capacity_witness :
  Forall (fun c : Z * Z => is_Some (buffers !! c.1)) [(100, 0); (200, 4); (300, 8)]
  /\ exists t' w',
       session raw_table [(100, 0); (200, 4); (300, 8)] (World buffers [] [])
       = Val (Some t', w')
       /\ 0 <= nbrLabels t' <= capacity t'.
Proof.
  assert (Hcalls : Forall (fun c : Z * Z => is_Some (buffers !! c.1))
                     [(100, 0); (200, 4); (300, 8)]).
  { repeat constructor; eexists; reflexivity. }
  split; [exact Hcalls|].
  assert (Hgen : generous (World buffers [] [])) by constructor.
  assert (Hlen : Z.of_nat (length [(100, 0); (200, 4); (300, 8)]) < 2 ^ 30)
    by (cbn; lia).
  destruct (session_keeps_count_within_capacity raw_table
              [(100, 0); (200, 4); (300, 8)] (World buffers [] [])
              Hcalls Hgen Hlen) as (t' & w' & Hrun & Hinv & _).
  exists t', w'. split; [exact Hrun|exact Hinv].
Defined.

(** ** The table built by a run is the list of first definitions *)







Lemma view_length h t :
  table_ok h t -> Z.of_nat (length (view h t)) = nbrLabels t.
Proof.
  intros [Hc _ _]. unfold view, live. rewrite length_fmap, length_take. lia.
Qed.









(** ** [printLabels] *)

Lemma table_ok_shown h t :
  table_ok h t -> exists l, view h t = shown l.
Proof.
  intros [_ _ Hok]. unfold view.
  induction Hok as [|c cs [x Hx] _ [l IH]].
  - now exists [].
  - destruct c as [e|]; [|discriminate]. cbn [entry_name] in Hx.
    exists ((x, address e) :: l). cbn [fmap list_fmap shown fst snd].
    cbn [entry_name entry_address fmap option_fmap option_map].
    rewrite Hx. f_equal. exact IH.
Qed.

Lemma printLabels_loop_lines w cells n : forall i l out,
  (i + n <= length cells)%nat ->
  (fun c => (entry_name (strings w) c, entry_address c)) <$> take n (drop i cells)
  = shown l ->
  printLabels_loop (Some cells) i n out w = Val (out ++ label_lines l, w).
Proof.
  induction n as [|n IH]; intros i l out Hlen Hv.
  - destruct l; [|discriminate]. cbn. now rewrite app_nil_r.
  - destruct (lookup_lt_is_Some_2 cells i) as [c Hc]; [lia|].
    rewrite (drop_S _ _ _ Hc) in Hv. cbn [take fmap list_fmap] in Hv.
    destruct l as [|[x a] l]; [discriminate|].
    cbn [shown fmap list_fmap fst snd] in Hv. injection Hv as Hname Haddr Hv.
    destruct c as [e|]; [|discriminate]. cbn in Hname, Haddr.
    injection Haddr as <-.
    cbn [printLabels_loop]. unfold bind at 1. cbn [read_entry]. rewrite Hc.
    cbn [ret]. unfold bind at 1, load_string. rewrite Hname.
    unfold bind at 1, printf. cbn [ret].
    rewrite (IH (S i) l); [|lia|exact Hv].
    cbn [label_lines fmap list_fmap fst snd]. now rewrite <- List.app_assoc.
Qed.

Lemma printLabels_shown t l out w :
  table_ok (strings w) t -> view (strings w) t = shown l ->
  printLabels (Some t) out w
  = Val (out ++ labels_header (nbrLabels t) :: label_lines l, w).
Proof.
  intros [Hc _ _] Hv. unfold printLabels, printf. unfold bind at 1. cbn [ret].
  unfold view, live, cells_of in *.
  destruct (entries t) as [cells|]; cbn [default from_option id] in *.
  - rewrite (printLabels_loop_lines w cells _ 0 l); [|lia|].
    + now rewrite <- List.app_assoc.
    + now rewrite drop_0.
  - cbn [length] in Hc. assert (nbrLabels t = 0) as Hn by lia.
    rewrite Hn in *. cbn in Hv. destruct l; [|discriminate].
    reflexivity.
Qed.

(** X14.  On a table the functions can work on, [printLabels] writes the
    header with the count and then one line per live entry, in table
    order, each with the entry's name and address; it changes nothing
    else. *)
Theorem printLabels_lists_the_live_entries (t : LabelTable) (out : list string)
    (w : world) :
  table_ok (strings w) t ->
  exists l,
    view (strings w) t = shown l
    /\ Z.of_nat (length l) = nbrLabels t
    /\ printLabels (Some t) out w
       = Val (out ++ labels_header (nbrLabels t) :: label_lines l, w).
Proof.
  intros Hok. destruct (table_ok_shown _ _ Hok) as [l Hv]. exists l.
  split; [exact Hv|]. split; [|now apply printLabels_shown].
  rewrite <- (view_length (strings w) t Hok), Hv. unfold shown.
  now rewrite length_fmap.
Qed.

Lemma printLabels_lists_the_live_entries_witness :
  table_ok buffers two_labels
  /\ printLabels (Some two_labels) [] (World buffers [] [])
     = Val (["There are 2 labels in the table:
"; "table name: A                     Address: 0
"; "table name: B                     Address: 4
"]%string, World buffers [] []).
Proof.
  split; [exact two_labels_ok|].
  destruct (printLabels_lists_the_live_entries two_labels [] (World buffers [] [])
              two_labels_ok) as (l & Hv & _ & Hrun).
  rewrite Hrun. f_equal. f_equal.
  assert (Hl : l = [("A", 0); ("B", 4)]%string).
  { vm_compute in Hv. destruct l as [|[x a] [|[y b] [|z l]]]; try discriminate.
    cbn in Hv. now injection Hv as -> -> -> ->. }
  subst l. vm_compute. reflexivity.
Defined.

Lemma printLabels_loop_appends es n : forall i out w r w',
  printLabels_loop es i n out w = Val (r, w') ->
  w' = w /\ exists more, r = out ++ more /\ length more = n.
Proof.
  induction n as [|n IH]; intros i out w r w' H.
  - injection H as <- <-. split; [done|]. exists []. now rewrite app_nil_r.
  - cbn [printLabels_loop] in H.
    apply bind_inv in H as (e & w1 & He & H).
    assert (w1 = w) as ->.
    { unfold read_entry in He. destruct es as [cells|]; [|discriminate].
      destruct (cells !! i) as [[e'|]|]; try discriminate. now injection He. }
    apply bind_inv in H as (name & w2 & Hn & H).
    assert (w2 = w) as ->.
    { unfold load_string in Hn. destruct (strings w !! label e); [|discriminate].
      now injection Hn. }
    unfold bind at 1, printf in H. cbn [ret] in H.
    apply IH in H as (-> & more & -> & Hlen). split; [done|].
    exists (label_line name (address e) :: more).
    split; [now rewrite <- List.app_assoc|]. cbn [length]. now rewrite Hlen.
Qed.

(** X15.  [printLabels] only writes to the standard output.  Whenever it
    returns, the buffers, the allocator and the error stream are as they
    were, even for a null table (for which the other functions report
    [ERROR0]); what the output held is still there, followed by one line
    for a null table and by count + 1 lines otherwise. *)
Theorem printLabels_only_appends (table : option LabelTable)
    (out : list string) (w : world) (r : list string) (w' : world) :
  printLabels table out w = Val (r, w') ->
  w' = w
  /\ exists more,
       r = out ++ more
       /\ length more = match table with
                        | None => 1%nat
                        | Some t => S (Z.to_nat (nbrLabels t))
                        end.
Proof.
  destruct table as [t|]; unfold printLabels, printf.
  - unfold bind at 1. cbn [ret]. intros H.
    apply printLabels_loop_appends in H as (-> & more & -> & Hlen).
    split; [done|]. exists (labels_header (nbrLabels t) :: more).
    split; [now rewrite <- List.app_assoc|]. cbn [length]. now rewrite Hlen.
  - intros [= <- <-]. split; [done|]. now eexists.
Qed.

Lemma printLabels_only_appends_witness :
  exists r,
    printLabels None ["so far"%string] (World buffers [] [])
    = Val (r, World buffers [] [])
    /\ exists more, r = ["so far"%string] ++ more /\ length more = 1%nat.
Proof.
  assert (H : exists r w',
             printLabels None ["so far"%string] (World buffers [] []) = Val (r, w')).
  { eexists _, _. reflexivity. }
  destruct H as (r & w' & H).
  destruct (printLabels_only_appends _ _ _ _ _ H) as (-> & Hmore).
  exists r. split; [exact H|exact Hmore].
Defined.



(** ** [process_arguments] *)

Lemma compare_strings_same s1 s2 :
  (compare_strings s1 s2 =? SAME) = bool_decide (s1 = s2).
Proof.
  unfold compare_strings. destruct (String.compare s1 s2) eqn:E.
  - apply String.compare_eq_iff in E. now rewrite bool_decide_true.
  - rewrite bool_decide_false; [done|]. intros ->.
    pose proof (String.compare_antisym s2 s2) as Ha.
    rewrite E in Ha. discriminate.
  - rewrite bool_decide_false; [done|]. intros ->.
    pose proof (String.compare_antisym s2 s2) as Ha.
    rewrite E in Ha. discriminate.
Qed.

Lemma debug_flag_cases a :
  (a = "0"%string /\ debug_flag a = Some false)
  \/ (a = "1"%string /\ debug_flag a = Some true)
  \/ (a <> "0"%string /\ a <> "1"%string /\ debug_flag a = None).
Proof.
  unfold debug_flag. destruct (decide (a = "0"%string)) as [->|H0]; [now left|].
  destruct (decide (a = "1"%string)) as [->|H1]; [right; now left|].
  right. right. done.
Qed.

Section ProcessArgumentsProperties.
Variable FILE : Type.
Variable stdin : FILE.
Variables debug_on debug_off override_debug_changes : M unit.
Variable fopen : string -> M (option FILE).

Local Abbreviation choice :=
  (debugging_choice debug_on debug_off override_debug_changes).
Local Abbreviation process :=
  (process_arguments FILE stdin debug_on debug_off override_debug_changes fopen).
Local Abbreviation set := (set_debug debug_on debug_off override_debug_changes).
Local Abbreviation open := (open_file FILE fopen).
Local Abbreviation usage := (usage_error FILE).

(** The first part, on a vector of at least three strings. *)
Lemma debugging_choice_three p a1 a2 rest w :
  choice (Z.of_nat (length (p :: a1 :: a2 :: rest))) (p :: a1 :: a2 :: rest) w
  = match debug_flag a1, debug_flag a2 with
    | Some b, _ =>
        (set b ;;
         ret (Z.of_nat (length (p :: a2 :: rest)), p :: a2 :: a2 :: rest)) w
    | None, Some b =>
        (set b ;;
         ret (Z.of_nat (length (p :: a2 :: rest)), p :: a1 :: a2 :: rest)) w
    | None, None =>
        Val ((Z.of_nat (length (p :: a1 :: a2 :: rest)), p :: a1 :: a2 :: rest), w)
    end.
Proof.
  unfold debugging_choice, set_debug.
  replace (Z.of_nat (length (p :: a1 :: a2 :: rest)) >? 1) with true
    by (symmetry; apply Z.gtb_lt; cbn [length]; lia).
  replace (Z.of_nat (length (p :: a1 :: a2 :: rest)) >? 2) with true
    by (symmetry; apply Z.gtb_lt; cbn [length]; lia).
  replace (Z.of_nat (length (p :: a1 :: a2 :: rest)) - 1)
    with (Z.of_nat (length (p :: a2 :: rest))) by (cbn [length]; lia).
  cbn [arg lookup list_lookup]. unfold bind at 1. cbn [ret].
  rewrite !compare_strings_same.
  destruct (debug_flag_cases a1) as [[-> ->]|[[-> ->]|(H0 & H1 & ->)]].
  - rewrite bool_decide_true by done. unfold bind, ret.
    destruct (debug_off w) as [[[] w1]|]; [|done].
    now destruct (override_debug_changes w1) as [[[] w2]|].
  - rewrite bool_decide_false by done. rewrite bool_decide_true by done.
    unfold bind, ret.
    destruct (debug_on w) as [[[] w1]|]; [|done].
    now destruct (override_debug_changes w1) as [[[] w2]|].
  - rewrite !bool_decide_false by done. unfold bind at 1. cbn [ret].
    rewrite !compare_strings_same.
    destruct (debug_flag_cases a2) as [[-> ->]|[[-> ->]|(H0' & H1' & ->)]].
    + rewrite bool_decide_true by done. unfold bind, ret.
      destruct (debug_off w) as [[[] w1]|]; [|done].
      now destruct (override_debug_changes w1) as [[[] w2]|].
    + rewrite bool_decide_false by done. rewrite bool_decide_true by done.
      unfold bind, ret.
      destruct (debug_on w) as [[[] w1]|]; [|done].
      now destruct (override_debug_changes w1) as [[[] w2]|].
    + now rewrite !bool_decide_false by done.
Qed.

Lemma bind_congr_l {A B} (m m' : M A) (k : A -> M B) w :
  m w = m' w -> bind m k w = bind m' k w.
Proof. unfold bind. now intros ->. Qed.

Lemma bind_congr_r {A B} (m : M A) (k k' : A -> M B) w :
  (forall a w', k a w' = k' a w') -> bind m k w = bind m k' w.
Proof. intros H. unfold bind. destruct (m w) as [[a w']|]; [apply H|done]. Qed.

Lemma bind_then_ret {A B C} (m : M A) (x : B) (k : B -> M C) w :
  bind (m ;; ret x) k w = (m ;; k x) w.
Proof. unfold bind, ret. now destruct (m w) as [[a w']|]. Qed.

(** X17.  The usage error.  When more than three strings are passed, or
    three of which neither the second nor the third is "0" or "1",
    [process_arguments] returns the null pointer after writing the usage
    line with the program's name; no file is opened.  The debugging choice
    found among the second and third strings, if any, has been made all
    the same. *)
Theorem process_arguments_usage (p a1 a2 : string) (rest : list string)
    (w : world) :
  rest <> [] \/ first_choice a1 a2 = None ->
  process (Z.of_nat (length (p :: a1 :: a2 :: rest))) (p :: a1 :: a2 :: rest) w
  = (match first_choice a1 a2 with
     | Some b => set b
     | None => ret tt
     end ;;
     usage p) w.
Proof.
  intros Hmany. pose proof (debugging_choice_three p a1 a2 rest w) as Hc.
  unfold process_arguments, first_choice in *.
  assert (Hlong : forall x, (Z.of_nat (length (p :: x :: a2 :: rest)) >? 2) = true)
    by (intros x; apply Z.gtb_lt; cbn [length]; lia).
  destruct (debug_flag a1) as [b|]; [|destruct (debug_flag a2) as [b|]].
  - destruct Hmany as [Hrest|]; [|discriminate].
    rewrite (bind_congr_l _ _ _ _ Hc), bind_then_ret.
    apply bind_congr_r. intros _ w1.
    destruct rest as [|a3 rest]; [done|].
    replace (Z.of_nat (length (p :: a2 :: a3 :: rest)) >? 2) with true
      by (symmetry; apply Z.gtb_lt; cbn [length]; lia).
    reflexivity.
  - destruct Hmany as [Hrest|]; [|discriminate].
    rewrite (bind_congr_l _ _ _ _ Hc), bind_then_ret.
    apply bind_congr_r. intros _ w1.
    destruct rest as [|a3 rest]; [done|].
    replace (Z.of_nat (length (p :: a2 :: a3 :: rest)) >? 2) with true
      by (symmetry; apply Z.gtb_lt; cbn [length]; lia).
    reflexivity.
  - rewrite (bind_Val _ _ _ _ _ Hc). rewrite Hlong. reflexivity.
Qed.

(** X18.  A debugging choice and a file name may come in either order.
    With the choice first, the third string is opened whatever it is (a
    second "0" or "1" is taken for a file name); with the file name first,
    the same calls are made and the same file is opened. *)
Theorem process_arguments_either_order (p d f : string) (b : bool) (w : world) :
  debug_flag d = Some b ->
  process 3 [p; d; f] w = (set b ;; open f) w
  /\ (debug_flag f = None ->
      process 3 [p; f; d] w = (set b ;; open f) w).
Proof.
  intros Hd. split; [|intros Hf].
  - pose proof (debugging_choice_three p d f [] w) as Hc. rewrite Hd in Hc.
    unfold process_arguments.
    rewrite (bind_congr_l _ _ _ _ Hc), bind_then_ret.
    apply bind_congr_r. intros _ w1. reflexivity.
  - pose proof (debugging_choice_three p f d [] w) as Hc. rewrite Hf, Hd in Hc.
    unfold process_arguments.
    rewrite (bind_congr_l _ _ _ _ Hc), bind_then_ret.
    apply bind_congr_r. intros _ w1. reflexivity.
Qed.

(** The first part, on a vector of two strings. *)
Lemma debugging_choice_two p a w :
  choice 2 [p; a] w
  = match debug_flag a with
    | Some b => (set b ;; ret (1, [p; a])) w
    | None => Val ((2, [p; a]), w)
    end.
Proof.
  unfold debugging_choice, set_debug.
  change (2 >? 1) with true. change (2 >? 2) with false.
  cbn [arg lookup list_lookup]. unfold bind at 1. cbn [ret].
  rewrite !compare_strings_same.
  destruct (debug_flag_cases a) as [[-> ->]|[[-> ->]|(H0 & H1 & ->)]].
  - rewrite bool_decide_true by done. unfold bind, ret.
    destruct (debug_off w) as [[[] w1]|]; [|done].
    now destruct (override_debug_changes w1) as [[[] w2]|].
  - rewrite bool_decide_false by done. rewrite bool_decide_true by done.
    unfold bind, ret.
    destruct (debug_on w) as [[[] w1]|]; [|done].
    now destruct (override_debug_changes w1) as [[[] w2]|].
  - now rewrite !bool_decide_false by done.
Qed.

(** X19.  With at most one argument: none, and the standard input is
    returned with nothing called; a "0" or "1", and the standard input is
    returned after the debugging choice; anything else, and it is opened as
    the file. *)
Theorem process_arguments_one_argument (p a : string) (w : world) :
  process 1 [p] w = Val (Some stdin, w)
  /\ (forall b, debug_flag a = Some b ->
                process 2 [p; a] w = (set b ;; ret (Some stdin)) w)
  /\ (debug_flag a = None -> process 2 [p; a] w = open a w).
Proof.
  split; [reflexivity|].
  pose proof (debugging_choice_two p a w) as Hc.
  unfold process_arguments. split.
  - intros b Hb. rewrite Hb in Hc.
    rewrite (bind_congr_l _ _ _ _ Hc), bind_then_ret.
    apply bind_congr_r. intros _ w1. reflexivity.
  - intros Hnone. rewrite Hnone in Hc.
    rewrite (bind_Val _ _ _ _ _ Hc). reflexivity.
Qed.
End ProcessArgumentsProperties.

(** ** The driver's arguments on concrete command lines *)

Lemma process_arguments_usage_witness :
  (["b.s"%string] <> [] \/ first_choice "0" "a.s" = None)
  /\ driver ["asm"; "0"; "a.s"; "b.s"]%string (World ∅ [] [])
     = Val (None,
            World ∅ [] ["debug_off"; "override_debug_changes";
                        "Usage:  asm [filename] [0|1]
"]%string).
Proof.
  assert (H : ["b.s"%string] <> [] \/ first_choice "0" "a.s" = None)
    by (left; discriminate).
  split; [exact H|]. unfold driver.
  rewrite (process_arguments_usage string "<stdin>"%string (noting "debug_on")
             (noting "debug_off") (noting "override_debug_changes") only_prog
             "asm" "0" "a.s" ["b.s"%string] (World ∅ [] []) H).
  reflexivity.
Defined.

Lemma process_arguments_either_order_witness :
  debug_flag "1" = Some true
  /\ debug_flag "prog.s" = None
  /\ driver ["asm"; "1"; "prog.s"]%string (World ∅ [] [])
     = Val (Some "prog.s"%string,
            World ∅ [] ["debug_on"; "override_debug_changes"]%string)
  /\ driver ["asm"; "prog.s"; "1"]%string (World ∅ [] [])
     = driver ["asm"; "1"; "prog.s"]%string (World ∅ [] []).
Proof.
  split; [reflexivity|]. split; [reflexivity|].
  destruct (process_arguments_either_order string "<stdin>"%string
              (noting "debug_on") (noting "debug_off")
              (noting "override_debug_changes") only_prog
              "asm" "1" "prog.s" true (World ∅ [] []) eq_refl) as [H1 H2].
  specialize (H2 eq_refl). split.
  - exact (eq_trans H1 eq_refl).
  - exact (eq_trans H2 (eq_sym H1)).
Defined.

Lemma process_arguments_one_argument_witness :
  debug_flag "0" = Some false
  /\ debug_flag "missing.s" = None
  /\ driver ["asm"; "0"]%string (World ∅ [] [])
     = Val (Some "<stdin>"%string,
            World ∅ [] ["debug_off"; "override_debug_changes"]%string)
  /\ driver ["asm"; "missing.s"]%string (World ∅ [] [])
     = Val (None, World ∅ [] ["Error: Cannot open file missing.s.
"%string]).
Proof.
  split; [reflexivity|]. split; [reflexivity|].
  split.
  - destruct (process_arguments_one_argument string "<stdin>"%string
                (noting "debug_on") (noting "debug_off")
                (noting "override_debug_changes") only_prog
                "asm" "0" (World ∅ [] [])) as (_ & Hflag & _).
    exact (eq_trans (Hflag false eq_refl) eq_refl).
  - destruct (process_arguments_one_argument string "<stdin>"%string
                (noting "debug_on") (noting "debug_off")
                (noting "override_debug_changes") only_prog
                "asm" "missing.s" (World ∅ [] [])) as (_ & _ & Hfile).
    exact (eq_trans (Hfile eq_refl) eq_refl).
Defined.

(** ** An [addLabel] that fails *)

(** X20.  Whenever [addLabel] returns 0 it has changed neither the table
    nor the buffers; it has written one message, [ERROR0] for a null table
    and [ERROR1] when the string copy was refused. *)
Theorem addLabel_failure_changes_nothing (table : option LabelTable)
    (lbl PC : Z) (w : world) (table' : option LabelTable) (w' : world) :
  addLabel table lbl PC w = Val ((0, table'), w') ->
  table' = table /\ strings w' = strings w
  /\ ((table = None /\ stderr w' = stderr w ++ [ERROR0])
      \/ (table <> None /\ stderr w' = stderr w ++ [ERROR1])).
Proof.
  intros H. destruct (addLabel_returns _ _ _ _ _ _ _ H)
    as [(_ & -> & Hwhy)|(Hone & _)]; [|discriminate].
  destruct table as [t|].
  - destruct Hwhy as [|[gs Hgs]]; [discriminate|].
    destruct (strings w !! lbl) as [s|] eqn:Hl.
    + rewrite (addLabel_refused t lbl PC s w gs Hl Hgs) in H.
      injection H as <-. split; [done|]. split; [done|]. now right.
    + unfold addLabel in H. cbn [verifyTableExists] in H.
      unfold bind at 1 in H. cbn [ret Z.eqb] in H.
      unfold bind at 1, strdup in H. unfold bind at 1, load_string in H.
      rewrite Hl in H. discriminate.
  - injection H as <-. split; [done|]. split; [done|]. now left.
Qed.

Lemma addLabel_failure_changes_nothing_witness :
  exists w',
    addLabel (Some two_labels) 400 8 (World buffers [false] [])
    = Val ((0, Some two_labels), w')
    /\ strings w' = buffers.
Proof.
  assert (H : exists table' w',
             addLabel (Some two_labels) 400 8 (World buffers [false] [])
             = Val ((0, table'), w')).
  { eexists _, _. vm_compute. reflexivity. }
  destruct H as (table' & w' & H).
  destruct (addLabel_failure_changes_nothing _ _ _ _ _ _ H) as (-> & Hs & _).
  exists w'. split; [exact H|exact Hs].
Defined.

(** ** The entry and the caller's buffer are one object *)



